(** * rag-ai-chat: a shallow embedding of the services and the HTTP handlers

    The repository is a small Bun/Elysia application.  Three singleton
    services ([FileUploadService], [RAGService], [DatabaseService]) sit
    behind five HTTP handlers; chunking, embedding, the vector store and
    the generator all live in an external library that the services call.

    The embedding follows the TypeScript sources function by function.
    JavaScript strings are sequences of UTF-16 code units, thrown [Error]s
    are values carrying their message, and everything that leaves the
    process (file system, library, clock, URL parser) is performed on an
    explicit [World] under an [Env] that fixes how the outside answers. *)

From Stdlib Require Import ZArith NArith List String Ascii Lia Bool.
From Stdlib Require Import DecimalString DecimalPos DecimalZ.
From stdpp Require Import base option list gmap.

Local Open Scope N_scope.

(* ===================================================================== *)
(** ** JavaScript strings *)
(* ===================================================================== *)

Module Js.

(** A string is a list of 16-bit code units. *)
Abbreviation jsstring := (list N).

(** An ASCII literal as code units. *)
Definition lit (s : string) : jsstring :=
  map N_of_ascii (list_ascii_of_string s).

Definition between (lo hi c : N) : bool := (lo <=? c) && (c <=? hi).

Definition c_dot : N := 46.
Definition c_dash : N := 45.
Definition c_underscore : N := 95.
Definition c_slash : N := 47.
Definition c_backslash : N := 92.
Definition c_quote : N := 34.

Definition is_digit (c : N) : bool := between 48 57 c.
Definition is_upper (c : N) : bool := between 65 90 c.
Definition is_lower (c : N) : bool := between 97 122 c.

(** [s.split(sep)] for a one-unit separator: never empty, one empty part for the empty string. *)
Fixpoint split (sep : N) (s : jsstring) : list jsstring :=
  match s with
  | [] => [[]]
  | c :: s' =>
      if N.eqb c sep then [] :: split sep s'
      else match split sep s' with
           | [] => [[c]]
           | p :: ps => (c :: p) :: ps
           end
  end.

(** [parts.join(sep)]. *)
Fixpoint join (sep : jsstring) (parts : list jsstring) : jsstring :=
  match parts with
  | [] => []
  | [p] => p
  | p :: ps => p ++ sep ++ join sep ps
  end.

(** Number-to-string of an integral number below 10^21 in magnitude:
    plain decimal digits with a leading minus sign when negative. *)
Definition num_to_string (z : Z) : jsstring :=
  lit (NilZero.string_of_int (Z.to_int z)).

(** WhiteSpace and LineTerminator code points, the ones [trim] strips. *)
Definition is_whitespace (c : N) : bool :=
  between 9 13 c || N.eqb c 32 || N.eqb c 160 || N.eqb c 5760
  || between 8192 8202 c || N.eqb c 8232 || N.eqb c 8233
  || N.eqb c 8239 || N.eqb c 8287 || N.eqb c 12288 || N.eqb c 65279.

Fixpoint trimStart (s : jsstring) : jsstring :=
  match s with
  | [] => []
  | c :: s' => if is_whitespace c then trimStart s' else s
  end.

Definition trimEnd (s : jsstring) : jsstring := rev (trimStart (rev s)).

(** [s.trim()] *)
Definition trim (s : jsstring) : jsstring := trimEnd (trimStart s).

(** [s.replace(/QUOTE/g, "&quot;")], QUOTE being the double quote. *)
Definition escape_quotes (s : jsstring) : jsstring :=
  flat_map (fun c => if N.eqb c c_quote then lit "&quot;" else [c]) s.

End Js.

Import Js.

(* ===================================================================== *)
(** ** src/services/file-upload.service.ts : generateSafeFilename *)
(* ===================================================================== *)

Module FileName.

(** The character class [a-zA-Z0-9.-] of the regular expression. *)
Definition in_class (c : N) : bool :=
  is_lower c || is_upper c || is_digit c || N.eqb c c_dot || N.eqb c c_dash.

(** [originalName.replace(/[^a-zA-Z0-9.-]/g, "_")]: the expression has
    no [u] flag, so it runs over code units. *)
Definition replace_unsafe (originalName : jsstring) : jsstring :=
  map (fun c => if in_class c then c else c_underscore) originalName.

(** [timestamp] is the value of [Date.now()] at the call. *)
Definition generateSafeFilename (originalName : jsstring) (timestamp : Z)
  : jsstring :=
  let safeName := replace_unsafe originalName in
  let parts := split c_dot safeName in
  if (1 <? length parts)%nat then
    let extension := List.last parts [] in
    let nameWithoutExt := join [c_dot] (removelast parts) in
    nameWithoutExt ++ lit "_" ++ num_to_string timestamp
                   ++ lit "." ++ extension
  else
    safeName ++ lit "_" ++ num_to_string timestamp.

(** What the claim allows in a saved name. *)
Definition is_safe_char (c : N) : bool :=
  is_lower c || is_upper c || is_digit c
  || N.eqb c c_dot || N.eqb c c_dash || N.eqb c c_underscore.

End FileName.

Import FileName.

(* ===================================================================== *)
(** ** JavaScript values *)
(* ===================================================================== *)

Module Value.

(** Numbers are kept to what the modelled code needs: [NaN] and the
    integral values. *)
Inductive jsnum := NaN | Num (z : Z).

(** [a || d] on numbers: [NaN] and [0] are falsy. *)
Definition num_or (a : jsnum) (d : Z) : jsnum :=
  match a with
  | NaN => Num d
  | Num 0 => Num d
  | Num z => Num z
  end.

(** [a || d] on an optional string: [undefined] and the empty string are falsy. *)
Definition str_or (a : option jsstring) (d : jsstring) : jsstring :=
  match a with
  | None => d
  | Some [] => d
  | Some s => s
  end.

(** The dynamically typed values a library call may resolve with
    ([RAGResponse] is [{ content?, text?, [key]: any }]). *)
#[warnings="-register-all"]
Inductive JsValue :=
| JUndefined
| JNull
| JBool (b : bool)
| JNum (n : jsnum)
| JStr (s : jsstring)
| JObj (fields : list (jsstring * JsValue))
| JArr (items : list JsValue).

Definition truthy (v : JsValue) : bool :=
  match v with
  | JUndefined | JNull => false
  | JBool b => b
  | JNum NaN => false
  | JNum (Num z) => negb (Z.eqb z 0)
  | JStr s => negb (Nat.eqb (length s) 0)
  | JObj _ | JArr _ => true
  end.

(** [typeof v === "object"] *)
Definition typeof_object (v : JsValue) : bool :=
  match v with
  | JNull | JObj _ | JArr _ => true
  | _ => false
  end.

(** [typeof v === "string"] *)
Definition typeof_string (v : JsValue) : bool :=
  match v with JStr _ => true | _ => false end.

Definition str_eqb (a b : jsstring) : bool := bool_decide (a = b).

Fixpoint assoc (k : jsstring) (fields : list (jsstring * JsValue))
  : option JsValue :=
  match fields with
  | [] => None
  | (k', v) :: rest => if str_eqb k k' then Some v else assoc k rest
  end.

(** [k in v] for a key that is neither an index nor ["length"]. *)
Definition has_key (k : jsstring) (v : JsValue) : bool :=
  match v with
  | JObj fields => match assoc k fields with Some _ => true | None => false end
  | _ => false
  end.

(** [v.k], same proviso. *)
Definition get (k : jsstring) (v : JsValue) : JsValue :=
  match v with
  | JObj fields => match assoc k fields with Some x => x | None => JUndefined end
  | _ => JUndefined
  end.

Definition num_String (n : jsnum) : jsstring :=
  match n with NaN => lit "NaN" | Num z => num_to_string z end.

(** [String(v)] *)
Fixpoint to_String (v : JsValue) : jsstring :=
  match v with
  | JUndefined => lit "undefined"
  | JNull => lit "null"
  | JBool true => lit "true"
  | JBool false => lit "false"
  | JNum n => num_String n
  | JStr s => s
  | JObj _ => lit "[object Object]"
  | JArr items =>
      (fix elems (l : list JsValue) : jsstring :=
         match l with
         | [] => []
         | [x] => match x with JUndefined | JNull => [] | _ => to_String x end
         | x :: rest =>
             match x with JUndefined | JNull => [] | _ => to_String x end
               ++ lit "," ++ elems rest
         end) items
  end.

Definition hex_digit (n : N) : N :=
  if n <? 10 then 48 + n else 87 + n.

(** [\uXXXX] with lower-case hexadecimal digits. *)
Definition u_escape (c : N) : jsstring :=
  lit "\u" ++ [hex_digit (c / 4096 mod 16); hex_digit (c / 256 mod 16);
               hex_digit (c / 16 mod 16); hex_digit (c mod 16)].

Definition is_high_surrogate (c : N) : bool := between 55296 56319 c.
Definition is_low_surrogate (c : N) : bool := between 56320 57343 c.

Definition quote_unit (c : N) : jsstring :=
  if N.eqb c 8 then lit "\b"
  else if N.eqb c 9 then lit "\t"
  else if N.eqb c 10 then lit "\n"
  else if N.eqb c 12 then lit "\f"
  else if N.eqb c 13 then lit "\r"
  else if N.eqb c c_quote then lit "\" ++ [c_quote]
  else if N.eqb c c_backslash then lit "\\"
  else if c <? 32 then u_escape c
  else [c].

(** The body of [QuoteJSONString]: a well-formed surrogate pair is kept,
    a lone surrogate is escaped. *)
Fixpoint quote_units (s : jsstring) : jsstring :=
  match s with
  | [] => []
  | c :: rest =>
      if is_high_surrogate c then
        match rest with
        | d :: rest' =>
            if is_low_surrogate d then c :: d :: quote_units rest'
            else u_escape c ++ quote_units rest
        | [] => u_escape c
        end
      else if is_low_surrogate c then u_escape c ++ quote_units rest
      else quote_unit c ++ quote_units rest
  end.

Definition quote_json (s : jsstring) : jsstring :=
  [c_quote] ++ quote_units s ++ [c_quote].

(** [JSON.stringify(v)]; [None] is [undefined]. *)
Fixpoint JSON_stringify (v : JsValue) : option jsstring :=
  match v with
  | JUndefined => None
  | JNull => Some (lit "null")
  | JBool true => Some (lit "true")
  | JBool false => Some (lit "false")
  | JNum NaN => Some (lit "null")
  | JNum (Num z) => Some (num_to_string z)
  | JStr s => Some (quote_json s)
  | JObj fields =>
      let members :=
        (fix go (l : list (jsstring * JsValue)) : list jsstring :=
           match l with
           | [] => []
           | (k, x) :: rest =>
               match JSON_stringify x with
               | Some t => (quote_json k ++ lit ":" ++ t) :: go rest
               | None => go rest
               end
           end) fields in
      Some (lit "{" ++ join (lit ",") members ++ lit "}")
  | JArr items =>
      let elems :=
        (fix go (l : list JsValue) : list jsstring :=
           match l with
           | [] => []
           | x :: rest =>
               match JSON_stringify x with
               | Some t => t
               | None => lit "null"
               end :: go rest
           end) items in
      Some (lit "[" ++ join (lit ",") elems ++ lit "]")
  end.

End Value.

Import Value.

(* ===================================================================== *)
(** ** src/config/app.config.ts *)
(* ===================================================================== *)

Module Config.

(** The part of [process.env] the modelled code reads.  A numeric field
    holds the value of [Number(process.env.X)], [NaN] when the variable
    is unset or not a number. *)
Record ProcessEnv := {
  DATABASE_PATH : option jsstring;
  UPLOADS_DIR : option jsstring;
  MAX_FILE_SIZE : jsnum;
  CLEANUP_INTERVAL : jsnum;
  MAX_FILE_AGE : jsnum;
  CHUNK_SIZE : jsnum;
  CHUNK_OVERLAP : jsnum
}.

Record DatabaseConfig := { path : jsstring }.

Record UploadsConfig := {
  directory : jsstring;
  allowedTypes : list jsstring;
  maxFileSize : jsnum;
  cleanupInterval : jsnum;
  maxFileAge : jsnum
}.

Record ChatConfig := { chunkSize : jsnum; chunkOverlap : jsnum }.

(** [server], [openai] and [embeddings] only travel to the library's
    builder and are left out. *)
Record AppConfig := {
  database : DatabaseConfig;
  uploads : UploadsConfig;
  chat : ChatConfig
}.

Definition appConfig (e : ProcessEnv) : AppConfig :=
  {| database := {| path := str_or (DATABASE_PATH e) (lit "./store/vectors.db") |};
     uploads :=
       {| directory := str_or (UPLOADS_DIR e) (lit "uploads");
          allowedTypes :=
            [lit "application/pdf"; lit "text/markdown"; lit "text/plain"];
          maxFileSize := num_or (MAX_FILE_SIZE e) (10 * 1024 * 1024);
          cleanupInterval := num_or (CLEANUP_INTERVAL e) (60 * 1000);
          maxFileAge := num_or (MAX_FILE_AGE e) (60 * 1000) |};
     chat :=
       {| chunkSize := num_or (CHUNK_SIZE e) 400;
          chunkOverlap := num_or (CHUNK_OVERLAP e) 50 |} |}.

(** No variable set. *)
Definition default_env : ProcessEnv :=
  {| DATABASE_PATH := None; UPLOADS_DIR := None; MAX_FILE_SIZE := NaN;
     CLEANUP_INTERVAL := NaN; MAX_FILE_AGE := NaN;
     CHUNK_SIZE := NaN; CHUNK_OVERLAP := NaN |}.

Definition with_chat (c : ChatConfig) (cfg : AppConfig) : AppConfig :=
  {| database := database cfg; uploads := uploads cfg; chat := c |}.

(** The constraint of the specification, [overlap < chunkSize]. *)
Definition overlap_ok (c : ChatConfig) : bool :=
  match chunkOverlap c, chunkSize c with
  | Num o, Num s => Z.ltb o s
  | _, _ => false
  end.

End Config.

Import Config.

(* ===================================================================== *)
(** ** Errors, the outside world and the effect monad *)
(* ===================================================================== *)

Module Rt.

(** A thrown [Error], named after the [new Error(...)] that builds it,
    with the values interpolated into its message. *)
Inductive Err :=
| RagNotInitialized                  (* rag.service: addWebSource, addFileSource, query *)
| FailedToInitialize                 (* rag.service: initialize *)
| FailedToLoadWeb (url : jsstring)
| FailedToLoadFile (fileName : jsstring)
| FailedToProcessQuery
| FailedToClear
| UnsupportedFileType (fileType : jsstring)     (* createLoader *)
| FileTooLarge (limit : jsnum)                  (* validateFile *)
| FileTypeNotSupported (fileType : jsstring) (allowed : list jsstring)
| FileNameRequired
| FailedToInitUploads
| FailedToSave
| ValidUrlRequired                   (* main: /add-source *)
| InvalidUrlFormat
| FileRequired                       (* main: /add-file *)
| QueryEmpty                         (* main: /chat *)
| ServiceNotInitialized
| Outside (what : string).           (* raised by the platform or the library *)

(** [error.message].  The size limit is printed in whole MiB, which is
    what JavaScript prints when the limit is a multiple of 2^20. *)
Definition message (e : Err) : jsstring :=
  match e with
  | RagNotInitialized => lit "RAG application not initialized"
  | FailedToInitialize => lit "Failed to initialize RAG application"
  | FailedToLoadWeb url => lit "Failed to load web source: " ++ url
  | FailedToLoadFile n => lit "Failed to load file: " ++ n
  | FailedToProcessQuery => lit "Failed to process query"
  | FailedToClear => lit "Failed to clear sources"
  | UnsupportedFileType t => lit "Unsupported file type: " ++ t
  | FileTooLarge limit =>
      lit "File size exceeds maximum allowed size of "
        ++ match limit with
           | NaN => lit "NaN"
           | Num z => num_to_string (z / (1024 * 1024))
           end ++ lit "MB"
  | FileTypeNotSupported t allowed =>
      lit "File type " ++ t ++ lit " is not supported. Allowed types: "
        ++ join (lit ", ") allowed
  | FileNameRequired => lit "File name is required"
  | FailedToInitUploads => lit "Failed to initialize uploads directory"
  | FailedToSave => lit "Failed to save uploaded file"
  | ValidUrlRequired => lit "Valid URL is required"
  | InvalidUrlFormat => lit "Invalid URL format"
  | FileRequired => lit "File is required"
  | QueryEmpty => lit "Query cannot be empty"
  | ServiceNotInitialized => lit "RAG service is not initialized"
  | Outside what => lit what
  end.

(** One row of the [vectors] table, as far as the services look at it. *)
Record Row := { source : jsstring; pageContent : jsstring }.

Inductive FileNode :=
| Blob (size : Z)
| DbFile (rows : list Row).

(** The loaders [rag.service.ts] constructs. *)
Inductive Loader :=
| WebLoader (urlOrContent : jsstring) (chunkSize chunkOverlap : jsnum)
| PdfLoader (filePathOrUrl : jsstring)
| MarkdownLoader (filePathOrUrl : jsstring).

(** The application object [RAGApplicationBuilder.build] resolves with;
    it remembers the store file of its [LibSqlDb]. *)
Record RagApp := { app_db : jsstring }.

(** Calls that leave the process, in the order they are made. *)
Inductive Call :=
| CBuild (db : jsstring)
| CAddLoader (l : Loader)
| CQuery (question : jsstring)
| CUnlink (p : jsstring)
| CMkdir (p : jsstring)
| CWrite (p : jsstring)
| CNow.

Record World := {
  ragApplication : option RagApp;        (* RAGService.ragApplication *)
  fs : gmap (list N) FileNode;           (* files on disk, by path *)
  calls : list Call
}.

(** How the outside answers during one request. *)
Record Env := {
  now : Z;                               (* Date.now() *)
  cwd : jsstring;                        (* process.cwd() *)
  mkdir_fails : bool;
  write_fails : bool;
  unlink_denied : jsstring -> bool;      (* unlink rejects though the file is there *)
  build_fails : bool;
  lib_addLoader : Loader -> list Row -> list Row * bool;
                                         (* rows afterwards, and whether it resolved *)
  lib_query : jsstring -> list Row -> option JsValue;
                                         (* [None]: the promise rejects *)
  url_hostname : jsstring -> option jsstring
                                         (* [new URL(s).hostname]; [None]: it throws *)
}.

Inductive Outcome (A : Type) :=
| Return (a : A)
| Throw (e : Err).
Arguments Return {A} a.
Arguments Throw {A} e.

Definition Eff (A : Type) : Type := World -> Outcome A * World.

Definition ret {A} (a : A) : Eff A := fun w => (Return a, w).
Definition throw {A} (e : Err) : Eff A := fun w => (Throw e, w).

Definition bind {A B} (c : Eff A) (k : A -> Eff B) : Eff B :=
  fun w => match c w with
           | (Return a, w') => k a w'
           | (Throw e, w') => (Throw e, w')
           end.

(** [try { c } catch (e) { h e }] *)
Definition try_catch {A} (c : Eff A) (h : Err -> Eff A) : Eff A :=
  fun w => match c w with
           | (Return a, w') => (Return a, w')
           | (Throw e, w') => h e w'
           end.

Definition record (c : Call) : Eff unit :=
  fun w => (Return tt,
            {| ragApplication := ragApplication w; fs := fs w;
               calls := calls w ++ [c] |}).

Definition set_fs (f : gmap (list N) FileNode) : Eff unit :=
  fun w => (Return tt,
            {| ragApplication := ragApplication w; fs := f; calls := calls w |}).

Definition set_app (a : RagApp) : Eff unit :=
  fun w => (Return tt,
            {| ragApplication := Some a; fs := fs w; calls := calls w |}).

Definition get_world : Eff World := fun w => (Return w, w).

(** Adding one call to the record of a world. *)
Definition called (c : Call) (w : World) : World :=
  {| ragApplication := ragApplication w; fs := fs w; calls := calls w ++ [c] |}.

(** The same surroundings with one answer changed. *)
Definition with_addLoader (f : Loader -> list Row -> list Row * bool)
    (e : Env) : Env :=
  {| now := now e; cwd := cwd e; mkdir_fails := mkdir_fails e;
     write_fails := write_fails e; unlink_denied := unlink_denied e;
     build_fails := build_fails e; lib_addLoader := f;
     lib_query := lib_query e; url_hostname := url_hostname e |}.

Definition with_query (f : jsstring -> list Row -> option JsValue)
    (e : Env) : Env :=
  {| now := now e; cwd := cwd e; mkdir_fails := mkdir_fails e;
     write_fails := write_fails e; unlink_denied := unlink_denied e;
     build_fails := build_fails e; lib_addLoader := lib_addLoader e;
     lib_query := f; url_hostname := url_hostname e |}.

Definition with_unlink_denied (f : jsstring -> bool) (e : Env) : Env :=
  {| now := now e; cwd := cwd e; mkdir_fails := mkdir_fails e;
     write_fails := write_fails e; unlink_denied := f;
     build_fails := build_fails e; lib_addLoader := lib_addLoader e;
     lib_query := lib_query e; url_hostname := url_hostname e |}.


End Rt.

Import Rt.

Notation "'let!' x ':=' c 'in' k" := (bind c (fun x => k))
  (at level 10, x name, c at level 100, k at level 200).
Notation "'exec!' c 'in' k" := (bind c (fun _ => k))
  (at level 10, c at level 100, k at level 200).

(* ===================================================================== *)
(** ** [path.join] of the platform (POSIX flavour) *)
(* ===================================================================== *)

Module Path.

Definition dot : jsstring := [c_dot].
Definition dotdot : jsstring := [c_dot; c_dot].

(** One round of [normalizeString]: [stack] holds the segments kept so
    far, the most recent first. *)
Definition norm_step (allowAboveRoot : bool)
    (stack : list jsstring) (seg : jsstring) : list jsstring :=
  if str_eqb seg [] || str_eqb seg dot then stack
  else if str_eqb seg dotdot then
    match stack with
    | top :: below =>
        if str_eqb top dotdot
        then (if allowAboveRoot then dotdot :: stack else stack)
        else below
    | [] => if allowAboveRoot then [dotdot] else []
    end
  else seg :: stack.

Definition norm_stack (allowAboveRoot : bool) (start : list jsstring)
    (p : jsstring) : list jsstring :=
  fold_left (norm_step allowAboveRoot) (split c_slash p) start.

Definition is_absolute (p : jsstring) : bool :=
  match p with c :: _ => N.eqb c c_slash | [] => false end.

Definition has_trailing_slash (p : jsstring) : bool :=
  match rev p with c :: _ => N.eqb c c_slash | [] => false end.

(** [path.normalize] *)
Definition normalize (p : jsstring) : jsstring :=
  match p with
  | [] => dot
  | _ =>
      let body := join [c_slash] (rev (norm_stack (negb (is_absolute p)) [] p)) in
      match body with
      | [] => if is_absolute p then [c_slash]
              else if has_trailing_slash p then lit "./" else dot
      | _ => (if is_absolute p then [c_slash] else [])
               ++ body ++ (if has_trailing_slash p then [c_slash] else [])
      end
  end.

(** [path.join(...args)]: empty arguments are skipped. *)
Definition path_join (args : list jsstring) : jsstring :=
  match List.filter (fun a => negb (str_eqb a [])) args with
  | [] => dot
  | parts => normalize (join [c_slash] parts)
  end.

(** The directory entries a normalized path walks through. *)
Definition entries (p : jsstring) : list jsstring :=
  rev (norm_stack (negb (is_absolute p)) [] p).

(** A segment [split] can produce and [norm_step] can keep. *)
Definition kept_segment (t : jsstring) : Prop :=
  t <> [] /\ t <> dot /\ ~ In c_slash t.

(** A segment that is pushed whatever the stack holds. *)
Definition plain_segment (t : jsstring) : Prop :=
  kept_segment t /\ t <> dotdot.

(** The stacks [normalizeString] builds: [..] only at the bottom, and
    only when the path may climb above its start. *)
Fixpoint clean (allowAboveRoot : bool) (stack : list jsstring) : Prop :=
  match stack with
  | [] => True
  | t :: below =>
      kept_segment t
      /\ (t = dotdot -> allowAboveRoot = true /\ Forall (eq dotdot) below)
      /\ clean allowAboveRoot below
  end.

(** [path.join(a, b)] before normalization, for a non-empty [b]. *)
Definition joined (a b : jsstring) : jsstring :=
  match a with
  | [] => b
  | _ => a ++ c_slash :: b
  end.

(** A path that the normalizer reads as the stack [stack]. *)
Definition reads_as (x : jsstring) (stack : list jsstring) : Prop :=
  x <> [] /\ forall B start,
    fold_left (norm_step B) (split c_slash x) start
    = fold_left (norm_step B) (rev stack) start.

End Path.

Import Path.

(* ===================================================================== *)
(** ** What the platform and the library do to the world *)
(* ===================================================================== *)

Module Ext.
Section WithEnv.
Context (env : Env).

(** Rows of the store file at [db]; a missing file reads as no rows. *)
Definition db_rows (w : World) (db : jsstring) : list Row :=
  match fs w !! db with
  | Some (DbFile rows) => rows
  | _ => []
  end.

(** [fs.unlink(p)] *)
Definition fs_unlink (p : jsstring) : Eff unit :=
  exec! record (CUnlink p) in
  let! w := get_world in
  match fs w !! p with
  | None => throw (Outside "ENOENT")
  | Some _ =>
      if unlink_denied env p then throw (Outside "EPERM")
      else set_fs (delete p (fs w))
  end.

(** [fs.mkdir(p, { recursive: true })]; directories are not tracked. *)
Definition fs_mkdir (p : jsstring) : Eff unit :=
  exec! record (CMkdir p) in
  if mkdir_fails env then throw (Outside "mkdir") else ret tt.

(** [Bun.write(p, file)] *)
Definition bun_write (p : jsstring) (size : Z) : Eff unit :=
  exec! record (CWrite p) in
  if write_fails env then throw (Outside "write")
  else let! w := get_world in set_fs (<[p := Blob size]> (fs w)).

(** [new RAGApplicationBuilder()...setVectorDatabase(new LibSqlDb({path})).build()]:
    the store file is opened, and created empty when it is missing. *)
Definition builder_build (db : jsstring) : Eff RagApp :=
  exec! record (CBuild db) in
  if build_fails env then throw (Outside "build")
  else
    let! w := get_world in
    match fs w !! db with
    | None => exec! set_fs (<[db := DbFile []]> (fs w)) in ret {| app_db := db |}
    | Some (DbFile _) => ret {| app_db := db |}
    | Some (Blob _) => throw (Outside "SQLITE_NOTADB")
    end.

(** [ragApplication.addLoader(l)]: load, chunk, embed and store, all
    inside the library; [lib_addLoader] says which rows the store holds
    when the promise settles and whether it resolved. *)
Definition addLoader_settle (app : RagApp) (l : Loader) : Eff unit :=
  let! w := get_world in
  let '(rows', ok) := lib_addLoader env l (db_rows w (app_db app)) in
  exec! set_fs (<[app_db app := DbFile rows']> (fs w)) in
  if ok then ret tt else throw (Outside "addLoader").

Definition app_addLoader (app : RagApp) (l : Loader) : Eff unit :=
  exec! record (CAddLoader l) in addLoader_settle app l.

(** [ragApplication.query(question)] *)
Definition app_query (app : RagApp) (question : jsstring) : Eff JsValue :=
  exec! record (CQuery question) in
  let! w := get_world in
  match lib_query env question (db_rows w (app_db app)) with
  | Some v => ret v
  | None => throw (Outside "query")
  end.

(** The world after [try { await fs.unlink(p) } catch { }]. *)
Definition after_unlink (p : jsstring) (w : World) : World :=
  let w1 := called (CUnlink p) w in
  match fs w !! p with
  | Some _ =>
      if unlink_denied env p then w1
      else {| ragApplication := ragApplication w1;
              fs := delete p (fs w1); calls := calls w1 |}
  | None => w1
  end.

(** The world after [addLoader(l)] has settled. *)
Definition after_addLoader (app : RagApp) (l : Loader) (w : World) : World :=
  let w1 := called (CAddLoader l) w in
  {| ragApplication := ragApplication w1;
     fs := <[app_db app := DbFile (fst (lib_addLoader env l (db_rows w (app_db app))))]> (fs w1);
     calls := calls w1 |}.

(** Whether that [addLoader(l)] resolves. *)
Definition addLoader_resolves (app : RagApp) (l : Loader) (w : World) : bool :=
  snd (lib_addLoader env l (db_rows w (app_db app))).

(** [new URL(s).hostname] *)
Definition url_hostname_of (s : jsstring) : Eff jsstring :=
  match url_hostname env s with
  | Some h => ret h
  | None => throw (Outside "TypeError: Invalid URL")
  end.

End WithEnv.
End Ext.

Import Ext.

(* ===================================================================== *)
(** ** src/services/rag.service.ts *)
(* ===================================================================== *)

Module RAGService.
Section WithEnv.
Context (env : Env) (cfg : AppConfig).

Definition initialize : Eff unit :=
  try_catch
    (let! app := builder_build env (path (database cfg)) in set_app app)
    (fun _ => throw FailedToInitialize).

(** The reply of a successful [addWebSource]. *)
Definition web_reply (hostname : jsstring) : jsstring :=
  lit "<div>- " ++ hostname ++ lit "</div>".

Definition addWebSource (url : jsstring) : Eff jsstring :=
  let! w := get_world in
  match ragApplication w with
  | None => throw RagNotInitialized
  | Some app =>
      try_catch
        (exec! app_addLoader env app
                 (WebLoader url (Config.chunkSize (chat cfg))
                                (Config.chunkOverlap (chat cfg))) in
         let! hostname := url_hostname_of env url in
         ret (web_reply hostname))
        (fun _ => throw (FailedToLoadWeb url))
  end.

Definition createLoader (filePath fileType : jsstring) : Outcome Loader :=
  if str_eqb fileType (lit "application/pdf") then
    Return (PdfLoader filePath)
  else if str_eqb fileType (lit "text/markdown")
          || str_eqb fileType (lit "text/plain") then
    Return (MarkdownLoader filePath)
  else Throw (UnsupportedFileType fileType).

(** The reply of a successful [addFileSource]. *)
Definition file_reply (fileName : jsstring) : jsstring :=
  lit "<div>- " ++ fileName ++ lit "</div>".

Definition addFileSource (filePath fileType fileName : jsstring)
  : Eff jsstring :=
  let! w := get_world in
  match ragApplication w with
  | None => throw RagNotInitialized
  | Some app =>
      try_catch
        (let! loader := (fun w => (createLoader filePath fileType, w)) in
         exec! app_addLoader env app loader in
         exec! try_catch (fs_unlink env filePath) (fun _ => ret tt) in
         ret (file_reply fileName))
        (fun _ =>
           exec! try_catch (fs_unlink env filePath) (fun _ => ret tt) in
           throw (FailedToLoadFile fileName))
  end.

(** [None] is [undefined], which [JSON.stringify] returns for it. *)
Definition formatResponse (answer : JsValue) : option jsstring :=
  if truthy answer && typeof_object answer
     && has_key (lit "content") answer && truthy (get (lit "content") answer)
  then Some (to_String (get (lit "content") answer))
  else if truthy answer && typeof_object answer
          && has_key (lit "text") answer && truthy (get (lit "text") answer)
  then Some (to_String (get (lit "text") answer))
  else match answer with
       | JStr s => Some s
       | _ => JSON_stringify answer
       end.

Definition query (question : jsstring) : Eff (option jsstring) :=
  let! w := get_world in
  match ragApplication w with
  | None => throw RagNotInitialized
  | Some app =>
      try_catch
        (let! answer := app_query env app question in
         ret (formatResponse answer))
        (fun _ => throw FailedToProcessQuery)
  end.

Definition clearSources : Eff unit :=
  try_catch
    (exec! try_catch (fs_unlink env (path (database cfg))) (fun _ => ret tt) in
     initialize)
    (fun _ => throw FailedToClear).

Definition isInitialized (w : World) : bool :=
  match ragApplication w with Some _ => true | None => false end.

End WithEnv.
End RAGService.

(* ===================================================================== *)
(** ** src/services/file-upload.service.ts *)
(* ===================================================================== *)

Module FileUploadService.

(** The fields of a [File] the service reads. *)
Record File := { name : jsstring; type : jsstring; size : Z }.

Record UploadedFile := {
  u_name : jsstring; u_type : jsstring; u_size : Z; u_path : jsstring
}.

Inductive Validation := Valid | Invalid (error : Err).

Section WithEnv.
Context (env : Env) (cfg : AppConfig).

Definition uploadsDir : jsstring := directory (uploads cfg).

Definition initialize : Eff unit :=
  try_catch (fs_mkdir env uploadsDir) (fun _ => throw FailedToInitUploads).

(** [file.size > limit] *)
Definition exceeds (size : Z) (limit : jsnum) : bool :=
  match limit with NaN => false | Num z => Z.ltb z size end.

(** [allowedTypes.includes(t)] *)
Definition type_allowed (t : jsstring) : bool :=
  existsb (str_eqb t) (allowedTypes (uploads cfg)).

Definition validateFile (file : File) : Validation :=
  if exceeds (size file) (maxFileSize (uploads cfg)) then
    Invalid (FileTooLarge (maxFileSize (uploads cfg)))
  else if negb (type_allowed (type file)) then
    Invalid (FileTypeNotSupported (type file) (allowedTypes (uploads cfg)))
  else if Nat.eqb (length (name file)) 0 then
    Invalid FileNameRequired
  else Valid.

Definition saveFile (file : File) : Eff UploadedFile :=
  match validateFile file with
  | Invalid error => throw error
  | Valid =>
      try_catch
        (exec! initialize in
         let safeFilename := generateSafeFilename (name file) (now env) in
         let filePath := path_join [uploadsDir; safeFilename] in
         let fullPath := path_join [cwd env; filePath] in
         exec! bun_write env fullPath (size file) in
         ret {| u_name := safeFilename; u_type := type file;
                u_size := size file; u_path := fullPath |})
        (fun _ => throw FailedToSave)
  end.

End WithEnv.
End FileUploadService.

(* ===================================================================== *)
(** ** src/services/database.service.ts *)
(* ===================================================================== *)

Module DatabaseService.

Inductive SourceType := web | pdf | markdown | text | unknown.

Record SourceItem := {
  item_source : jsstring;
  displayName : jsstring;
  icon : jsstring;
  item_type : SourceType
}.

(** [s.endsWith(suffix)] *)
Definition endsWith (suffix s : jsstring) : bool :=
  str_eqb (drop (length s - length suffix) s) suffix
  && (length suffix <=? length s)%nat.

(** [s.includes(sep)] for the slash. *)
Definition includes_slash (s : jsstring) : bool := existsb (N.eqb c_slash) s.

(** [source.split(sep).pop() || source] for the slash. *)
Definition basename_or (src : jsstring) : jsstring :=
  match List.last (split c_slash src) [] with
  | [] => src
  | b => b
  end.

Section WithConfig.
Context (env : Env) (cfg : AppConfig).

Definition formatSource (src : jsstring) : SourceItem :=
  match url_hostname env src with
  | Some hostname =>
      {| item_source := src; displayName := hostname;
         icon := [55356; 57104]; item_type := web |}
  | None =>
      if endsWith (lit ".pdf") src then
        {| item_source := src; displayName := basename_or src;
           icon := [55357; 56533]; item_type := pdf |}
      else if endsWith (lit ".md") src then
        {| item_source := src; displayName := basename_or src;
           icon := [55357; 56541]; item_type := markdown |}
      else if endsWith (lit ".txt") src then
        {| item_source := src; displayName := basename_or src;
           icon := [55357; 56541]; item_type := text |}
      else if includes_slash src then
        {| item_source := src; displayName := basename_or src;
           icon := [55357; 56516]; item_type := unknown |}
      else
        {| item_source := src; displayName := src;
           icon := [55357; 56516]; item_type := unknown |}
  end.

Fixpoint distinct (seen : list jsstring) (l : list jsstring) : list jsstring :=
  match l with
  | [] => []
  | x :: rest =>
      if existsb (str_eqb x) seen then distinct seen rest
      else x :: distinct (x :: seen) rest
  end.

(** The rows of [SELECT DISTINCT source FROM vectors WHERE source IS NOT
    NULL]; a store that cannot be read has none. *)
Definition select_sources (w : World) : list jsstring :=
  distinct [] (map source (db_rows w (path (database cfg)))).

Definition getSources (w : World) : list SourceItem :=
  map formatSource (select_sources w).

(** [SELECT COUNT( * ) as count FROM vectors] *)
Definition count (w : World) : nat :=
  length (db_rows w (path (database cfg))).

Definition databaseExists (w : World) : bool := (0 <? count w)%nat.

End WithConfig.
End DatabaseService.

(* ===================================================================== *)
(** ** src/main.ts *)
(* ===================================================================== *)

Module Main.

Import FileUploadService.

Section WithEnv.
Context (env : Env) (cfg : AppConfig).

(** [initializeApp]: [true] when the server goes on to listen, [false]
    when the process exits with status 1. *)
Definition initializeApp (w : World) : bool * World :=
  match (exec! RAGService.initialize env cfg in
         FileUploadService.initialize env cfg) w with
  | (Return _, w') => (true, w')
  | (Throw _, w') => (false, w')
  end.

(** Every thrown value of the model is an [Error], so the fallback
    message is never used. *)
Definition handleError (error : Err) : jsstring :=
  lit "<div style=" ++ [c_quote]
    ++ lit "color: #f56565; padding: 10px; border: 1px solid #fed7d7; border-radius: 8px; background: #fef5e7;"
    ++ [c_quote] ++ lit ">"
    ++ [9888; 65039; 32] ++ message error ++ lit "</div>".

(** POST /add-source *)
Definition add_source (url : jsstring) : Eff jsstring :=
  try_catch
    (match url with
     | [] => throw ValidUrlRequired
     | _ =>
         exec! try_catch (exec! url_hostname_of env url in ret tt)
                         (fun _ => throw InvalidUrlFormat) in
         RAGService.addWebSource env cfg url
     end)
    (fun error => ret (handleError error)).

(** POST /add-file: the body of its [try], then the handler. *)
Definition add_file_try (file : option File) : Eff jsstring :=
  match file with
  | None => throw FileRequired
  | Some f =>
      let! uploadedFile := saveFile env cfg f in
      RAGService.addFileSource env (u_path uploadedFile)
        (u_type uploadedFile) (u_name uploadedFile)
  end.

Definition add_file (file : option File) : Eff jsstring :=
  try_catch (add_file_try file) (fun error => ret (handleError error)).

(** POST /clear-sources *)
Definition clear_sources : Eff jsstring :=
  try_catch (exec! RAGService.clearSources env cfg in ret [])
            (fun error => ret (handleError error)).

(** The two shapes of a /chat reply. *)
Definition chat_answer (answer : jsstring) : jsstring :=
  lit "<div class=" ++ [c_quote] ++ lit "assistant-message"
    ++ [c_quote] ++ lit " data-markdown=" ++ [c_quote]
    ++ escape_quotes answer ++ [c_quote] ++ lit ">"
    ++ answer ++ lit "</div>".

Definition chat_error (error : Err) : jsstring :=
  lit "<div class=" ++ [c_quote] ++ lit "assistant-message"
    ++ [c_quote] ++ lit ">" ++ handleError error ++ lit "</div>".

(** POST /chat.  [answer.replace] on [undefined] is a [TypeError]. *)
Definition chat (query : jsstring) : Eff jsstring :=
  try_catch
    (if Nat.eqb (length query) 0 || Nat.eqb (length (trim query)) 0 then
       throw QueryEmpty
     else
       let! w := get_world in
       if negb (RAGService.isInitialized w) then throw ServiceNotInitialized
       else
         let! answer := RAGService.query env (trim query) in
         match answer with
         | Some a => ret (chat_answer a)
         | None => throw (Outside "TypeError")
         end)
    (fun error => ret (chat_error error)).

End WithEnv.

(** The requests the server takes once it listens. *)
Inductive Op :=
| OpAddSource (url : jsstring)
| OpAddFile (file : option File)
| OpClearSources
| OpChat (query : jsstring).

Definition handle (env : Env) (cfg : AppConfig) (op : Op) : Eff jsstring :=
  match op with
  | OpAddSource url => add_source env cfg url
  | OpAddFile file => add_file env cfg file
  | OpClearSources => clear_sources env cfg
  | OpChat query => chat env query
  end.

(** The worlds a listening server can be in: the one [initializeApp]
    leaves when it does not exit, and those after any request, each
    under whatever surroundings it meets. *)
Inductive reachable (cfg : AppConfig) : World -> Prop :=
| reach_boot env w0 :
    fst (initializeApp env cfg w0) = true ->
    reachable cfg (snd (initializeApp env cfg w0))
| reach_step env op w :
    reachable cfg w -> reachable cfg (snd (handle env cfg op w)).

(** A computation that never takes the application away. *)
Definition keeps_app {A} (c : Eff A) : Prop :=
  forall w, RAGService.isInitialized w = true ->
            RAGService.isInitialized (snd (c w)) = true.

End Main.

(* ===================================================================== *)
(** ** Interleaving of ingestion requests *)
(* ===================================================================== *)

(** The handlers are [async]: a call of [addWebSource] or [addFileSource]
    runs up to [await this.ragApplication.addLoader(...)], hands the loader
    to the library and suspends; other requests run until the promise
    settles, and then the rest of the function runs.  A server state
    therefore carries the calls suspended at that [await].  The two
    [await fs.unlink] of [addFileSource] are taken together with the code
    after them. *)

Module Concurrent.

Inductive Request :=
| AddWeb (url : jsstring)
| AddFile (filePath fileType fileName : jsstring).

(** The source identifier an ingestion is about. *)
Definition source_id (r : Request) : jsstring :=
  match r with
  | AddWeb url => url
  | AddFile filePath _ _ => filePath
  end.

Record Pending := {
  p_request : Request;
  p_app : RagApp;
  p_loader : Loader
}.

Record Server := {
  world : World;
  in_flight : list Pending;
  replies : list (Request * Outcome jsstring)
}.

Section WithEnv.
Context (env : Env) (cfg : AppConfig).

Definition suspend (r : Request) (app : RagApp) (l : Loader) (s : Server)
  : Server :=
  {| world := snd (record (CAddLoader l) (world s));
     in_flight := in_flight s ++ [{| p_request := r; p_app := app; p_loader := l |}];
     replies := replies s |}.

Definition finish (r : Request) (c : Eff jsstring) (s : Server) : Server :=
  let '(o, w') := c (world s) in
  {| world := w'; in_flight := in_flight s; replies := replies s ++ [(r, o)] |}.

(** A request arrives: the code before the [await]. *)
Definition arrive (r : Request) (s : Server) : Server :=
  match ragApplication (world s) with
  | None => finish r (throw RagNotInitialized) s
  | Some app =>
      match r with
      | AddWeb url =>
          suspend r app
            (WebLoader url (Config.chunkSize (chat cfg))
                           (Config.chunkOverlap (chat cfg))) s
      | AddFile filePath fileType fileName =>
          match RAGService.createLoader filePath fileType with
          | Return l => suspend r app l s
          | Throw _ =>
              finish r
                (exec! try_catch (fs_unlink env filePath) (fun _ => ret tt) in
                 throw (FailedToLoadFile fileName)) s
          end
      end
  end.

(** The code after the [await], from the settling of the promise on. *)
Definition resume (p : Pending) : Eff jsstring :=
  match p_request p with
  | AddWeb url =>
      try_catch
        (exec! addLoader_settle env (p_app p) (p_loader p) in
         let! hostname := url_hostname_of env url in
         ret (RAGService.web_reply hostname))
        (fun _ => throw (FailedToLoadWeb url))
  | AddFile filePath fileType fileName =>
      try_catch
        (exec! addLoader_settle env (p_app p) (p_loader p) in
         exec! try_catch (fs_unlink env filePath) (fun _ => ret tt) in
         ret (RAGService.file_reply fileName))
        (fun _ =>
           exec! try_catch (fs_unlink env filePath) (fun _ => ret tt) in
           throw (FailedToLoadFile fileName))
  end.

(** The promise of the [i]-th suspended call settles. *)
Definition settle (i : nat) (s : Server) : Server :=
  match in_flight s !! i with
  | None => s
  | Some p =>
      finish (p_request p) (resume p)
        {| world := world s;
           in_flight := take i (in_flight s) ++ drop (S i) (in_flight s);
           replies := replies s |}
  end.

(** How many suspended ingestions are about source [src]. *)
Definition in_flight_for (src : jsstring) (s : Server) : nat :=
  length (List.filter (fun p => str_eqb (source_id (p_request p)) src)
                      (in_flight s)).

(** The replies that turn a request down while another one is in flight.
    No [Error] of the sources says so; this is every immediate failure. *)
Definition rejected (r : Request) (s : Server) : bool :=
  existsb (fun '(r', o) =>
             match o with
             | Throw _ => match r, r' with
                          | AddWeb u, AddWeb u' => str_eqb u u'
                          | AddFile a b c, AddFile a' b' c' =>
                              str_eqb a a' && str_eqb b b' && str_eqb c c'
                          | _, _ => false
                          end
             | Return _ => false
             end) (replies s).

End WithEnv.
End Concurrent.

(* ===================================================================== *)
(** ** The sources page: getSourcesHTML and GET /sources *)
(* ===================================================================== *)

Module SourcesPage.

Import DatabaseService.

Section WithEnv.
Context (env : Env) (cfg : AppConfig).

(** The reply for a store without sources. *)
Definition no_sources : jsstring :=
  lit "<div style=" ++ [c_quote] ++ lit "color: #666; font-style: italic;"
    ++ [c_quote] ++ lit ">No sources added yet</div>".

Definition source_item (item : SourceItem) : jsstring :=
  lit "<div class=" ++ [c_quote] ++ lit "source-item" ++ [c_quote] ++ lit ">"
    ++ icon item ++ lit " " ++ displayName item ++ lit "</div>".

(** database.service.ts: [getSourcesHTML] *)
Definition getSourcesHTML (w : World) : jsstring :=
  match getSources env cfg w with
  | [] => no_sources
  | sources => join [] (map source_item sources)
  end.

(** main.ts: GET /sources; nothing in its [try] throws. *)
Definition sources : Eff jsstring :=
  try_catch (fun w => (Return (getSourcesHTML w), w))
            (fun error => ret (Main.handleError error)).

End WithEnv.
End SourcesPage.

(* ===================================================================== *)
(** ** Old uploads: deleteFile and cleanupOldFiles *)
(* ===================================================================== *)

Module Cleanup.

(** What [fs.readdir] and [fs.stat] answer during one sweep; [None] is a
    rejected promise.  [mtime] is [stats.mtime.getTime()]. *)
Record DirView := {
  readdir : jsstring -> option (list jsstring);
  mtime : jsstring -> option Z
}.

Section WithEnv.
Context (env : Env) (cfg : AppConfig) (view : DirView).

(** file-upload.service.ts: [deleteFile] *)
Definition deleteFile (filePath : jsstring) : Eff unit :=
  try_catch (fs_unlink env filePath) (fun _ => ret tt).

(** The body of the [for] loop of [cleanupOldFiles]. *)
Fixpoint sweep (maxAgeMs : jsnum) (files : list jsstring) : Eff unit :=
  match files with
  | [] => ret tt
  | file :: rest =>
      let filePath := path_join [FileUploadService.uploadsDir cfg; file] in
      match mtime view filePath with
      | None => throw (Outside "stat")
      | Some m =>
          exec! (if FileUploadService.exceeds (now env - m) maxAgeMs
                 then deleteFile filePath else ret tt) in
          sweep maxAgeMs rest
      end
  end.

(** file-upload.service.ts: [cleanupOldFiles] *)
Definition cleanupOldFiles (maxAgeMs : jsnum) : Eff unit :=
  try_catch
    (match readdir view (FileUploadService.uploadsDir cfg) with
     | None => throw (Outside "readdir")
     | Some files => sweep maxAgeMs files
     end)
    (fun _ => ret tt).

(** The timer of [initializeApp]. *)
Definition periodic_cleanup : Eff unit :=
  cleanupOldFiles (maxFileAge (uploads cfg)).

(** The files of a listing that a sweep gets to and finds too old. *)
Fixpoint stale (maxAgeMs : jsnum) (files : list jsstring) : list jsstring :=
  match files with
  | [] => []
  | file :: rest =>
      let filePath := path_join [FileUploadService.uploadsDir cfg; file] in
      match mtime view filePath with
      | None => []
      | Some m =>
          if FileUploadService.exceeds (now env - m) maxAgeMs
          then filePath :: stale maxAgeMs rest
          else stale maxAgeMs rest
      end
  end.

End WithEnv.
End Cleanup.

(* ===================================================================== *)
(** ** Worlds along an upload *)
(* ===================================================================== *)

Module Upload.

Import FileUploadService.

(** The world [saveFile] leaves when it succeeds. *)
Definition saved (env : Env) (cfg : AppConfig) (file : File) (w : World)
  : World :=
  let target :=
    path_join [cwd env;
               path_join [uploadsDir cfg;
                          generateSafeFilename (name file) (now env)]] in
  {| ragApplication := ragApplication w;
     fs := <[target := Blob (size file)]> (fs w);
     calls := calls w ++ [CMkdir (uploadsDir cfg); CWrite target] |}.

End Upload.

Import Upload.

(* ===================================================================== *)
(** ** Vocabulary of the specification *)
(* ===================================================================== *)

Module Spec.

(** The content types the specification calls recognized. *)
Definition recognized : list jsstring :=
  [lit "application/pdf"; lit "text/markdown"; lit "text/plain"].

(** The errors that say "unsupported kind of source". *)
Definition is_unsupported_kind (e : Err) : bool :=
  match e with
  | UnsupportedFileType _ | FileTypeNotSupported _ _ => true
  | _ => false
  end.

(** The confirmation of the specification, [{ sourceId, chunkCount }]. *)
Definition confirmation (sourceId : jsstring) (chunkCount : nat) : JsValue :=
  JObj [(lit "sourceId", JStr sourceId);
        (lit "chunkCount", JNum (Num (Z.of_nat chunkCount)))].

Fixpoint is_prefix (a b : jsstring) : bool :=
  match a, b with
  | [], _ => true
  | x :: a', y :: b' => N.eqb x y && is_prefix a' b'
  | _ :: _, [] => false
  end.

(** [hay.includes(needle)] *)
Fixpoint is_infix (needle hay : jsstring) : bool :=
  is_prefix needle hay
  || match hay with
     | [] => false
     | _ :: hay' => is_infix needle hay'
     end.

End Spec.

(* ===================================================================== *)
(** ** Sample surroundings *)
(* ===================================================================== *)

Module Sample.

(** The host of [scheme://host/...]; enough of the URL parser for the
    plain lower-case addresses used below. *)
Fixpoint after_scheme (s : jsstring) : option jsstring :=
  match s with
  | 58 :: 47 :: 47 :: rest => Some rest
  | _ :: rest => after_scheme rest
  | [] => None
  end.

Fixpoint host_prefix (s : jsstring) : jsstring :=
  match s with
  | [] => []
  | c :: rest =>
      if N.eqb c c_slash || N.eqb c 63 || N.eqb c 35 || N.eqb c 58 then []
      else c :: host_prefix rest
  end.

Definition hostname (s : jsstring) : option jsstring :=
  match after_scheme s with
  | Some rest => match host_prefix rest with [] => None | h => Some h end
  | None => None
  end.

Definition loader_source (l : Loader) : jsstring :=
  match l with
  | WebLoader u _ _ => u
  | PdfLoader p => p
  | MarkdownLoader p => p
  end.

(** A library run that stores two chunks and resolves. *)
Definition addLoader_ok (l : Loader) (rows : list Row) : list Row * bool :=
  (rows ++ [{| source := loader_source l; pageContent := lit "chunk 0" |};
            {| source := loader_source l; pageContent := lit "chunk 1" |}],
   true).

(** A library run that stores the first chunk and then rejects, the
    embedding of the second chunk having failed. *)
Definition addLoader_partial (l : Loader) (rows : list Row) : list Row * bool :=
  (rows ++ [{| source := loader_source l; pageContent := lit "chunk 0" |}],
   false).

Definition cfg : AppConfig := appConfig default_env.

Definition env : Env :=
  {| now := 1700000000000;
     cwd := lit "/app";
     mkdir_fails := false;
     write_fails := false;
     unlink_denied := fun _ => false;
     build_fails := false;
     lib_addLoader := addLoader_ok;
     lib_query := fun _ _ => Some (JObj [(lit "content", JStr (lit "42"))]);
     url_hostname := hostname |}.

(** Nothing on disk, service not yet initialised. *)
Definition blank : World :=
  {| ragApplication := None; fs := ∅; calls := [] |}.

(** The world once [initializeApp] has run. *)
Definition booted : World := snd (Main.initializeApp env cfg blank).

Definition notes : FileUploadService.File :=
  {| FileUploadService.name := lit "notes.md";
     FileUploadService.type := lit "text/markdown";
     FileUploadService.size := 12 |}.

(** Where [saveFile] puts [notes]. *)
Definition notes_path : jsstring := lit "/app/uploads/notes_1700000000000.md".
Definition notes_name : jsstring := lit "notes_1700000000000.md".

(** The world once [notes] has been saved. *)
Definition uploaded : World :=
  snd (FileUploadService.saveFile env cfg notes booted).

Definition store : RagApp := {| app_db := lit "./store/vectors.db" |}.

Definition docs_url : jsstring := lit "https://example.com/docs".

(** The world once that address has been ingested: two rows. *)
Definition ingested : World :=
  snd (RAGService.addWebSource env cfg docs_url booted).

(** A 20 MiB picture. *)
Definition scan : FileUploadService.File :=
  {| FileUploadService.name := lit "scan.png";
     FileUploadService.type := lit "image/png";
     FileUploadService.size := 20 * 1024 * 1024 |}.

(** A server that has just started. *)
Definition idle : Concurrent.Server :=
  {| Concurrent.world := booted; Concurrent.in_flight := [];
     Concurrent.replies := [] |}.

(** CHUNK_SIZE=100 and CHUNK_OVERLAP=200 in the environment. *)
Definition wide_overlap : ProcessEnv :=
  {| DATABASE_PATH := None; UPLOADS_DIR := None; MAX_FILE_SIZE := NaN;
     CLEANUP_INTERVAL := NaN; MAX_FILE_AGE := NaN;
     CHUNK_SIZE := Num 100; CHUNK_OVERLAP := Num 200 |}.

End Sample.


(* ===================================================================== *)
(** * Properties *)
(* ===================================================================== *)

(** ** Strings *)

Section StringFacts.

Variable P : N -> Prop.

Lemma split_nonempty sep s : split sep s <> [].
Proof.
  destruct s as [|c s]; simpl; [discriminate|].
  destruct (N.eqb c sep); [discriminate|].
  destruct (split sep s); discriminate.
Qed.

Lemma Forall_split sep s :
  Forall P s -> Forall (Forall P) (split sep s).
Proof.
  induction 1 as [|c s Hc Hs IH]; simpl.
  - repeat constructor.
  - destruct (N.eqb c sep).
    + constructor; [constructor | exact IH].
    + destruct (split sep s) as [|p ps]; [repeat constructor; assumption|].
      inversion IH; subst. constructor; [constructor|]; assumption.
Qed.

Lemma Forall_join sep parts :
  Forall P sep -> Forall (Forall P) parts -> Forall P (join sep parts).
Proof.
  intros Hsep. induction 1 as [|p ps Hp Hps IH]; simpl; [constructor|].
  destruct ps as [|p' ps']; [exact Hp|].
  apply Forall_app; split; [exact Hp|].
  apply Forall_app; split; [exact Hsep | exact IH].
Qed.

Lemma Forall_last_part (parts : list jsstring) :
  Forall (Forall P) parts -> Forall P (List.last parts []).
Proof.
  induction 1 as [|p ps Hp Hps IH]; simpl; [constructor|].
  destruct ps; [exact Hp | exact IH].
Qed.

Lemma Forall_removelast_parts (parts : list jsstring) :
  Forall (Forall P) parts -> Forall (Forall P) (removelast parts).
Proof.
  induction 1 as [|p ps Hp Hps IH]; simpl; [constructor|].
  destruct ps; [constructor | constructor; assumption].
Qed.

End StringFacts.

Lemma uint_digits (u : Decimal.uint) :
  Forall (fun c => is_digit c = true) (lit (NilEmpty.string_of_uint u)).
Proof.
  induction u; simpl; try constructor; try reflexivity; assumption.
Qed.

Lemma num_to_string_chars (z : Z) :
  Forall (fun c => is_digit c = true \/ c = c_dash) (num_to_string z).
Proof.
  assert (D : forall u,
    Forall (fun c => is_digit c = true \/ c = c_dash)
           (lit (NilZero.string_of_uint u))).
  { intros u. unfold NilZero.string_of_uint.
    destruct u;
      [repeat constructor
      |apply (List.Forall_impl _ (fun c H => or_introl H) (uint_digits _)) ..]. }
  unfold num_to_string, NilZero.string_of_int.
  destruct (Z.to_int z) as [u|u]; [apply D|].
  change (lit (String "-" (NilZero.string_of_uint u)))
    with (c_dash :: lit (NilZero.string_of_uint u)).
  constructor; [right; reflexivity | apply D].
Qed.

Lemma num_to_string_nonempty (z : Z) : num_to_string z <> [].
Proof.
  unfold num_to_string, NilZero.string_of_int.
  destruct (Z.to_int z) as [u|u]; [|discriminate].
  unfold NilZero.string_of_uint. destruct u; discriminate.
Qed.

Lemma join_split sep s : join [sep] (split sep s) = s.
Proof.
  induction s as [|c s IH]; simpl; [reflexivity|].
  destruct (N.eqb_spec c sep) as [->|Hne].
  - pose proof (split_nonempty sep s) as Hn.
    destruct (split sep s) as [|p ps]; [contradiction|].
    simpl in *. rewrite IH. reflexivity.
  - destruct (split sep s) as [|p ps] eqn:E.
    + exfalso. eapply split_nonempty. exact E.
    + simpl in *. destruct ps; simpl in *; rewrite <- IH; reflexivity.
Qed.

Lemma join_snoc sep (parts : list jsstring) x :
  parts <> [] -> join sep (parts ++ [x]) = join sep parts ++ sep ++ x.
Proof.
  induction parts as [|p ps IH]; [contradiction|]. intros _.
  destruct ps as [|p' ps'].
  - reflexivity.
  - specialize (IH ltac:(discriminate)).
    change (p ++ sep ++ join sep ((p' :: ps') ++ [x])
            = (p ++ sep ++ join sep (p' :: ps')) ++ sep ++ x).
    rewrite IH, <- !app_assoc. reflexivity.
Qed.

Lemma removelast_last_parts (parts : list jsstring) :
  parts <> [] -> parts = removelast parts ++ [List.last parts []].
Proof. intros H. apply app_removelast_last. exact H. Qed.

Lemma split_parts_no_sep sep s :
  Forall (fun p => ~ In sep p) (split sep s).
Proof.
  induction s as [|c s IH]; simpl.
  - constructor; [intros []|constructor].
  - destruct (N.eqb_spec c sep) as [->|Hne].
    + constructor; [intros []|exact IH].
    + destruct (split sep s) as [|p ps]; [repeat constructor; intros [H|[]]; congruence|].
      inversion IH; subst. constructor; [|assumption].
      intros [H|H]; [congruence|contradiction].
Qed.

Lemma split_single sep s : ~ In sep s -> split sep s = [s].
Proof.
  induction s as [|c s IH]; simpl; intros H; [reflexivity|].
  destruct (N.eqb_spec c sep) as [->|Hne]; [exfalso; apply H; left; reflexivity|].
  rewrite IH; [reflexivity|]. intros Hin. apply H. right. exact Hin.
Qed.

Lemma split_many sep s : In sep s -> (1 < length (split sep s))%nat.
Proof.
  induction s as [|c s IH]; simpl; intros H; [contradiction|].
  destruct (N.eqb_spec c sep) as [->|Hne].
  - pose proof (split_nonempty sep s).
    destruct (split sep s); [contradiction|]. simpl. lia.
  - destruct H as [H|H]; [congruence|]. specialize (IH H).
    destruct (split sep s) as [|p ps]; simpl in *; lia.
Qed.

(** ** The saved file name *)

Lemma replace_unsafe_safe (s : jsstring) :
  Forall (fun c => is_safe_char c = true) (replace_unsafe s).
Proof.
  unfold replace_unsafe. apply Forall_map.
  apply Forall_forall. intros c _. simpl.
  unfold is_safe_char, in_class.
  destruct (is_lower c || is_upper c || is_digit c
            || N.eqb c c_dot || N.eqb c c_dash) eqn:E.
  - rewrite E. reflexivity.
  - reflexivity.
Qed.

Lemma timestamp_safe (z : Z) :
  Forall (fun c => is_safe_char c = true) (num_to_string z).
Proof.
  eapply (List.Forall_impl _ _ (num_to_string_chars z)).
  Unshelve. simpl. intros c [H| ->].
  - unfold is_safe_char. rewrite H. rewrite !orb_true_r. reflexivity.
  - reflexivity.
Qed.

Lemma generateSafeFilename_chars (originalName : jsstring) (timestamp : Z) :
  Forall (fun c => is_safe_char c = true)
         (generateSafeFilename originalName timestamp).
Proof.
  unfold generateSafeFilename.
  pose proof (Forall_split _ c_dot _ (replace_unsafe_safe originalName)) as Hp.
  destruct (1 <? length (split c_dot (replace_unsafe originalName)))%nat.
  - repeat (apply Forall_app; split).
    + apply Forall_join; [repeat constructor|].
      apply Forall_removelast_parts. exact Hp.
    + repeat constructor.
    + apply timestamp_safe.
    + repeat constructor.
    + apply Forall_last_part. exact Hp.
  - repeat (apply Forall_app; split).
    + apply replace_unsafe_safe.
    + repeat constructor.
    + apply timestamp_safe.
Qed.

Lemma generateSafeFilename_underscore (originalName : jsstring) (timestamp : Z) :
  In c_underscore (generateSafeFilename originalName timestamp).
Proof.
  unfold generateSafeFilename.
  destruct (1 <? length (split c_dot (replace_unsafe originalName)))%nat;
    apply in_or_app; right; left; reflexivity.
Qed.

(** The time stamp sits right before the extension, or at the end of a
    name without one. *)
Lemma generateSafeFilename_shape (originalName : jsstring) (timestamp : Z) :
  (~ In c_dot (replace_unsafe originalName)
   /\ generateSafeFilename originalName timestamp
      = replace_unsafe originalName ++ lit "_" ++ num_to_string timestamp)
  \/ (exists stem ext,
        replace_unsafe originalName = stem ++ lit "." ++ ext
        /\ ~ In c_dot ext
        /\ generateSafeFilename originalName timestamp
           = stem ++ lit "_" ++ num_to_string timestamp ++ lit "." ++ ext).
Proof.
  unfold generateSafeFilename.
  set (s := replace_unsafe originalName).
  destruct (in_dec N.eq_dec c_dot s) as [Hin|Hnin].
  - right. pose proof (split_many c_dot s Hin) as Hlen.
    pose proof (split_parts_no_sep c_dot s) as Hns.
    pose proof (join_split c_dot s) as Hj.
    destruct (Nat.ltb_spec 1 (length (split c_dot s))) as [_|]; [|lia].
    set (parts := split c_dot s) in *.
    assert (Hne : parts <> []) by (intros E; rewrite E in Hlen; simpl in Hlen; lia).
    assert (Hrl : removelast parts <> []).
    { destruct parts as [|a [|b l]]; simpl in *; try lia; discriminate. }
    exists (join [c_dot] (removelast parts)), (List.last parts []).
    split; [|split].
    + rewrite <- Hj at 1. rewrite (removelast_last_parts parts Hne) at 1.
      apply join_snoc. exact Hrl.
    + clear -Hns Hne. induction parts as [|a l IH]; [contradiction|].
      inversion Hns; subst. destruct l; [assumption|].
      apply IH; [assumption|discriminate].
    + reflexivity.
  - left. rewrite (split_single _ _ Hnin). simpl. split; [exact Hnin|reflexivity].
Qed.

(** ** Blank questions *)

Lemma trimStart_blank (s : jsstring) :
  trimStart s = [] <-> forallb is_whitespace s = true.
Proof.
  induction s as [|c s IH]; simpl; [tauto|].
  destruct (is_whitespace c); simpl; [exact IH|].
  split; discriminate.
Qed.

Lemma forallb_rev_ws (s : jsstring) :
  forallb is_whitespace (rev s) = forallb is_whitespace s.
Proof.
  induction s as [|c s IH]; simpl; [reflexivity|].
  rewrite forallb_app, IH. simpl. rewrite andb_true_r. apply andb_comm.
Qed.

Lemma trimStart_keeps_ink (s : jsstring) :
  forallb is_whitespace s = false ->
  forallb is_whitespace (trimStart s) = false.
Proof.
  induction s as [|c s IH]; simpl; [trivial|].
  destruct (is_whitespace c) eqn:E; simpl; [exact IH|].
  intros _. rewrite E. reflexivity.
Qed.

Lemma trim_blank (s : jsstring) :
  trim s = [] <-> forallb is_whitespace s = true.
Proof.
  unfold trim, trimEnd. split.
  - intros H. destruct (forallb is_whitespace s) eqn:E; [reflexivity|].
    apply trimStart_keeps_ink in E.
    rewrite <- forallb_rev_ws in E. apply trimStart_keeps_ink in E.
    rewrite <- forallb_rev_ws, H in E. discriminate.
  - intros H. apply trimStart_blank in H. rewrite H. reflexivity.
Qed.

Lemma blank_check (query : jsstring) :
  Nat.eqb (length query) 0 || Nat.eqb (length (trim query)) 0
  = forallb is_whitespace query.
Proof.
  destruct (forallb is_whitespace query) eqn:E.
  - apply trim_blank in E. rewrite E. apply orb_true_r.
  - assert (H1 : query <> []) by (intros ->; discriminate).
    assert (H2 : trim query <> []).
    { intros H. apply trim_blank in H. congruence. }
    destruct query; [contradiction|]. destruct (trim (n :: query)); [contradiction|].
    reflexivity.
Qed.

(** C6.  The /chat handler answers a question that is empty or made of
    white space only with the "Query cannot be empty" error and leaves
    the world as it was: no call to the library (embedder, store,
    generator) is made.  Any other question goes on to the
    initialisation check and then, trimmed, to the library. *)
Theorem chat_rejects_blank_questions
    (env : Env) (query : jsstring) (w : World) :
  Main.chat env query w =
  if forallb is_whitespace query then
    (Return (Main.chat_error QueryEmpty), w)
  else
    match ragApplication w with
    | None => (Return (Main.chat_error ServiceNotInitialized), w)
    | Some app =>
        let w' := called (CQuery (trim query)) w in
        match lib_query env (trim query) (db_rows w (app_db app)) with
        | None => (Return (Main.chat_error FailedToProcessQuery), w')
        | Some v =>
            match RAGService.formatResponse v with
            | Some a => (Return (Main.chat_answer a), w')
            | None => (Return (Main.chat_error (Outside "TypeError")), w')
            end
        end
    end.
Proof.
  unfold Main.chat, try_catch. rewrite blank_check.
  destruct (forallb is_whitespace query); [reflexivity|].
  unfold bind, get_world, RAGService.isInitialized, RAGService.query.
  destruct (ragApplication w) as [app|] eqn:Happ; simpl; [|reflexivity].
  unfold bind, get_world, try_catch, app_query, bind, record, get_world.
  simpl. rewrite Happ. unfold called, db_rows. simpl.
  destruct (lib_query env (trim query) _) as [v|]; simpl; [|reflexivity].
  destruct (RAGService.formatResponse v); reflexivity.
Qed.

(** ** Answers *)

Lemma formatResponse_content fields (s : jsstring) :
  assoc (lit "content") fields = Some (JStr s) -> s <> [] ->
  RAGService.formatResponse (JObj fields) = Some s.
Proof.
  intros Hc Hs. unfold RAGService.formatResponse, has_key, get.
  rewrite Hc. simpl. destruct s; [contradiction|]. reflexivity.
Qed.

Lemma formatResponse_text fields (s : jsstring) :
  truthy (get (lit "content") (JObj fields)) = false ->
  assoc (lit "text") fields = Some (JStr s) -> s <> [] ->
  RAGService.formatResponse (JObj fields) = Some s.
Proof.
  intros Hc Ht Hs. unfold RAGService.formatResponse.
  rewrite Hc, andb_false_r. unfold has_key, get. rewrite Ht. simpl.
  destruct s; [contradiction|]. reflexivity.
Qed.

Lemma query_run (env : Env) (question : jsstring) (w : World) (app : RagApp) :
  ragApplication w = Some app ->
  RAGService.query env question w =
  match lib_query env question (db_rows w (app_db app)) with
  | Some v => (Return (RAGService.formatResponse v), called (CQuery question) w)
  | None => (Throw FailedToProcessQuery, called (CQuery question) w)
  end.
Proof.
  intros Happ. unfold RAGService.query, bind, get_world. rewrite Happ.
  unfold try_catch, app_query, bind, record, get_world. simpl.
  unfold called, db_rows. simpl.
  destruct (lib_query env question _); reflexivity.
Qed.

(** C9, as the code has it.  On an initialised service [query] hands the
    question to the library once.  When the library resolves with an
    object whose [content] is a non-empty string, that string is returned
    unchanged; failing that, a non-empty string [text] is; a response
    that is itself a string is returned as it is.  The call fails, with
    "Failed to process query" and nothing else, exactly when the
    library's promise rejects. *)
Theorem query_returns_answer_text
    (env : Env) (question : jsstring) (w : World) (app : RagApp)
    (Happ : ragApplication w = Some app) :
  let rows := db_rows w (app_db app) in
  let w' := called (CQuery question) w in
  (forall fields s,
      lib_query env question rows = Some (JObj fields) ->
      assoc (lit "content") fields = Some (JStr s) -> s <> [] ->
      RAGService.query env question w = (Return (Some s), w'))
  /\ (forall fields s,
      lib_query env question rows = Some (JObj fields) ->
      truthy (get (lit "content") (JObj fields)) = false ->
      assoc (lit "text") fields = Some (JStr s) -> s <> [] ->
      RAGService.query env question w = (Return (Some s), w'))
  /\ (forall s,
      lib_query env question rows = Some (JStr s) ->
      RAGService.query env question w = (Return (Some s), w'))
  /\ (lib_query env question rows = None <->
      RAGService.query env question w = (Throw FailedToProcessQuery, w'))
  /\ (forall e,
      fst (RAGService.query env question w) = Throw e ->
      e = FailedToProcessQuery /\ lib_query env question rows = None).
Proof.
  intros rows w'. rewrite (query_run env question w app Happ).
  fold rows. fold w'.
  repeat split.
  - intros fields s Hq Hc Hs. rewrite Hq.
    rewrite (formatResponse_content fields s Hc Hs). reflexivity.
  - intros fields s Hq Hc Ht Hs. rewrite Hq.
    rewrite (formatResponse_text fields s Hc Ht Hs). reflexivity.
  - intros s Hq. rewrite Hq. destruct s; reflexivity.
  - intros ->. reflexivity.
  - destruct (lib_query env question rows); [discriminate|reflexivity].
  - destruct (lib_query env question rows); simpl in H; congruence.
  - destruct (lib_query env question rows); simpl in H; congruence.
Qed.

Lemma query_returns_answer_text_witness :
  RAGService.query Sample.env (lit "why") Sample.booted
  = (Return (Some (lit "42")), called (CQuery (lit "why")) Sample.booted).
Proof.
  apply (proj1 (query_returns_answer_text Sample.env (lit "why") Sample.booted
                  {| app_db := lit "./store/vectors.db" |} eq_refl)
           [(lit "content", JStr (lit "42"))] (lit "42")).
  - reflexivity.
  - reflexivity.
  - discriminate.
Defined.

(** C9 as written fails: a generator whose text is empty. *)
Lemma query_empty_content_not_verbatim :
  let env := with_query
               (fun _ _ => Some (JObj [(lit "content", JStr [])])) Sample.env in
  fst (RAGService.query env (lit "why") Sample.booted)
  = Return (Some (lit "{" ++ [c_quote] ++ lit "content" ++ [c_quote]
                    ++ lit ":" ++ [c_quote; c_quote] ++ lit "}"))
  /\ fst (RAGService.query env (lit "why") Sample.booted) <> Return (Some []).
Proof.
  split; [vm_compute; reflexivity | vm_compute; discriminate].
Qed.

(** ** Ingestion, step by step *)

Lemma swallow_unlink (env : Env) (p : jsstring) (w : World) :
  try_catch (fs_unlink env p) (fun _ => ret tt) w
  = (Return tt, after_unlink env p w).
Proof.
  unfold try_catch, fs_unlink, bind, record, get_world, after_unlink, called.
  simpl. destruct (fs w !! p); [|reflexivity].
  destruct (unlink_denied env p); reflexivity.
Qed.

Lemma app_addLoader_run (env : Env) (app : RagApp) (l : Loader) (w : World) :
  app_addLoader env app l w
  = (if addLoader_resolves env app l w then Return tt
     else Throw (Outside "addLoader"),
     after_addLoader env app l w).
Proof.
  unfold app_addLoader, addLoader_settle, bind, record, get_world,
    addLoader_resolves, after_addLoader, called, db_rows.
  simpl. destruct (lib_addLoader env l _) as [rows' ok]. simpl.
  destruct ok; reflexivity.
Qed.

Lemma addFileSource_run (env : Env) (filePath fileType fileName : jsstring)
    (w : World) (app : RagApp) :
  ragApplication w = Some app ->
  RAGService.addFileSource env filePath fileType fileName w =
  match RAGService.createLoader filePath fileType with
  | Throw _ => (Throw (FailedToLoadFile fileName), after_unlink env filePath w)
  | Return l =>
      (if addLoader_resolves env app l w
       then Return (RAGService.file_reply fileName)
       else Throw (FailedToLoadFile fileName),
       after_unlink env filePath (after_addLoader env app l w))
  end.
Proof.
  intros Happ. unfold RAGService.addFileSource, bind at 1, get_world.
  rewrite Happ. unfold try_catch at 1, bind at 1.
  destruct (RAGService.createLoader filePath fileType) as [l|e].
  - unfold bind at 1. rewrite app_addLoader_run.
    destruct (addLoader_resolves env app l w).
    + unfold bind. rewrite swallow_unlink. reflexivity.
    + unfold bind. rewrite swallow_unlink. reflexivity.
  - unfold bind. rewrite swallow_unlink. reflexivity.
Qed.

Lemma addWebSource_run (env : Env) (cfg : AppConfig) (url : jsstring)
    (w : World) (app : RagApp) :
  ragApplication w = Some app ->
  let l := WebLoader url (Config.chunkSize (chat cfg))
                         (Config.chunkOverlap (chat cfg)) in
  RAGService.addWebSource env cfg url w =
  (if addLoader_resolves env app l w then
     match url_hostname env url with
     | Some hostname => Return (RAGService.web_reply hostname)
     | None => Throw (FailedToLoadWeb url)
     end
   else Throw (FailedToLoadWeb url),
   after_addLoader env app l w).
Proof.
  intros Happ l. unfold RAGService.addWebSource, bind at 1, get_world.
  rewrite Happ. unfold try_catch, bind at 1. fold l.
  rewrite app_addLoader_run.
  destruct (addLoader_resolves env app l w); [|reflexivity].
  unfold bind, url_hostname_of.
  destruct (url_hostname env url); reflexivity.
Qed.

(** ** The temporary file *)

Lemma after_unlink_gone (env : Env) (p : jsstring) (w : World) :
  unlink_denied env p = false -> fs (after_unlink env p w) !! p = None.
Proof.
  intros Hd. unfold after_unlink. rewrite Hd.
  destruct (fs w !! p) eqn:E; simpl; [apply lookup_delete_eq|exact E].
Qed.

Lemma after_unlink_calls (env : Env) (p : jsstring) (w : World) :
  calls (after_unlink env p w) = calls w ++ [CUnlink p].
Proof.
  unfold after_unlink.
  destruct (fs w !! p); [destruct (unlink_denied env p)|]; reflexivity.
Qed.

(** C8.  Every run of [addFileSource] on an initialised service ends
    with one [fs.unlink] of the uploaded file, after the library call if
    there was one; when the platform carries it out the file is gone,
    whether the ingestion succeeded or failed.  The outcome is settled by
    the ingestion alone: it is the same whatever the unlink does, success
    when the loader was made and the library resolved, and the error
    "Failed to load file" otherwise. *)
Theorem temp_file_removed_whatever_the_outcome
    (env : Env) (filePath fileType fileName : jsstring)
    (w : World) (app : RagApp)
    (Happ : ragApplication w = Some app) :
  let r := RAGService.addFileSource env filePath fileType fileName w in
  calls (snd r)
    = calls w
      ++ match RAGService.createLoader filePath fileType with
         | Return l => [CAddLoader l]
         | Throw _ => []
         end
      ++ [CUnlink filePath]
  /\ (unlink_denied env filePath = false -> fs (snd r) !! filePath = None)
  /\ (forall denied,
        fst (RAGService.addFileSource (with_unlink_denied denied env)
               filePath fileType fileName w) = fst r)
  /\ fst r
     = match RAGService.createLoader filePath fileType with
       | Return l =>
           if addLoader_resolves env app l w
           then Return (RAGService.file_reply fileName)
           else Throw (FailedToLoadFile fileName)
       | Throw _ => Throw (FailedToLoadFile fileName)
       end.
Proof.
  intros r. subst r.
  rewrite (addFileSource_run env _ _ _ w app Happ).
  repeat split.
  - destruct (RAGService.createLoader filePath fileType); simpl;
      rewrite after_unlink_calls; [|reflexivity].
    simpl. rewrite <- app_assoc. reflexivity.
  - intros Hd.
    destruct (RAGService.createLoader filePath fileType); simpl;
      apply after_unlink_gone; exact Hd.
  - intros denied.
    rewrite (addFileSource_run (with_unlink_denied denied env) _ _ _ w app Happ).
    destruct (RAGService.createLoader filePath fileType); reflexivity.
  - destruct (RAGService.createLoader filePath fileType); reflexivity.
Qed.

Lemma temp_file_removed_whatever_the_outcome_witness :
  fs (snd (RAGService.addFileSource Sample.env Sample.notes_path
             (lit "text/markdown") Sample.notes_name Sample.uploaded))
    !! Sample.notes_path = None.
Proof.
  apply (proj1 (proj2 (temp_file_removed_whatever_the_outcome
                         Sample.env Sample.notes_path (lit "text/markdown")
                         Sample.notes_name Sample.uploaded Sample.store
                         eq_refl))).
  reflexivity.
Defined.

Example uploaded_has_notes :
  fs Sample.uploaded !! Sample.notes_path = Some (Blob 12).
Proof. vm_compute. reflexivity. Qed.

(** ** Failed ingestion *)

Lemma db_rows_after_unlink (env : Env) (p db : jsstring) (w : World) :
  p <> db -> db_rows (after_unlink env p w) db = db_rows w db.
Proof.
  intros Hne. unfold after_unlink, db_rows.
  destruct (fs w !! p); [destruct (unlink_denied env p)|]; simpl;
    rewrite ?lookup_delete_ne by exact Hne; reflexivity.
Qed.

Lemma db_rows_after_addLoader (env : Env) (app : RagApp) (l : Loader) (w : World) :
  db_rows (after_addLoader env app l w) (app_db app)
  = fst (lib_addLoader env l (db_rows w (app_db app))).
Proof.
  unfold after_addLoader, db_rows at 1. simpl.
  rewrite lookup_insert_eq. reflexivity.
Qed.

(** C1, as the code has it.  A failed [addFileSource] reports "Failed to
    load file", and besides the library call and the unlink of the
    uploaded file it does nothing: the store holds the rows the library
    left when its promise settled, and the rows it held before when the
    loader could not even be made.  Nothing is rolled back. *)
Theorem failed_ingestion_keeps_what_the_library_wrote
    (env : Env) (cfg : AppConfig) (filePath fileType fileName : jsstring)
    (w : World) (app : RagApp) (e : Err)
    (Happ : ragApplication w = Some app)
    (Hdb : app_db app = path (database cfg))
    (Htmp : filePath <> path (database cfg))
    (Hfail : fst (RAGService.addFileSource env filePath fileType fileName w)
             = Throw e) :
  let w' := snd (RAGService.addFileSource env filePath fileType fileName w) in
  let db := path (database cfg) in
  e = FailedToLoadFile fileName
  /\ db_rows w' db
     = match RAGService.createLoader filePath fileType with
       | Return l => fst (lib_addLoader env l (db_rows w db))
       | Throw _ => db_rows w db
       end
  /\ DatabaseService.count cfg w'
     = match RAGService.createLoader filePath fileType with
       | Return l => length (fst (lib_addLoader env l (db_rows w db)))
       | Throw _ => DatabaseService.count cfg w
       end
  /\ calls w'
     = calls w
       ++ match RAGService.createLoader filePath fileType with
          | Return l => [CAddLoader l]
          | Throw _ => []
          end
       ++ [CUnlink filePath].
Proof.
  intros w' db. subst w'. revert Hfail.
  rewrite (addFileSource_run env _ _ _ w app Happ).
  unfold DatabaseService.count. fold db.
  destruct (RAGService.createLoader filePath fileType) as [l|e0]; simpl.
  - intros Hfail.
    rewrite (db_rows_after_unlink env filePath db _ Htmp).
    unfold db. rewrite <- Hdb. rewrite db_rows_after_addLoader.
    rewrite after_unlink_calls. simpl. rewrite <- app_assoc.
    repeat split.
    destruct (addLoader_resolves env app l w); congruence.
  - intros Hfail. rewrite (db_rows_after_unlink env filePath db _ Htmp).
    rewrite after_unlink_calls.
    repeat split. congruence.
Qed.

Lemma failed_ingestion_keeps_what_the_library_wrote_witness :
  db_rows (snd (RAGService.addFileSource
                  (with_addLoader Sample.addLoader_partial Sample.env)
                  Sample.notes_path (lit "text/markdown") Sample.notes_name
                  Sample.uploaded))
          (path (database Sample.cfg))
  = [{| source := Sample.notes_path; pageContent := lit "chunk 0" |}].
Proof.
  apply (proj1 (proj2 (failed_ingestion_keeps_what_the_library_wrote
    (with_addLoader Sample.addLoader_partial Sample.env) Sample.cfg
    Sample.notes_path (lit "text/markdown") Sample.notes_name
    Sample.uploaded Sample.store (FailedToLoadFile Sample.notes_name)
    eq_refl eq_refl ltac:(discriminate) eq_refl))).
Defined.

(** C1 as written fails: the library stores the first chunk and the
    embedding of the second one fails. *)
Lemma failed_ingestion_leaves_a_partial_source :
  let env := with_addLoader Sample.addLoader_partial Sample.env in
  let r := RAGService.addFileSource env Sample.notes_path
             (lit "text/markdown") Sample.notes_name Sample.uploaded in
  fst r = Throw (FailedToLoadFile Sample.notes_name)
  /\ DatabaseService.count Sample.cfg Sample.uploaded = 0%nat
  /\ DatabaseService.count Sample.cfg (snd r) = 1%nat
  /\ DatabaseService.select_sources Sample.cfg Sample.uploaded = []
  /\ DatabaseService.select_sources Sample.cfg (snd r) = [Sample.notes_path].
Proof.
  repeat split; vm_compute; reflexivity.
Qed.

(** ** The reply to a web source *)

(** C3, as the code has it.  On an initialised service [addWebSource]
    succeeds exactly when the library resolves and the address parses,
    and then returns the HTML fragment naming the host of the address;
    it returns neither the address nor a chunk count. *)
Theorem web_source_reply_names_the_host
    (env : Env) (cfg : AppConfig) (url reply : jsstring)
    (w : World) (app : RagApp)
    (Happ : ragApplication w = Some app) :
  fst (RAGService.addWebSource env cfg url w) = Return reply
  <-> addLoader_resolves env app
        (WebLoader url (Config.chunkSize (chat cfg))
                       (Config.chunkOverlap (chat cfg))) w = true
      /\ exists hostname,
           url_hostname env url = Some hostname
           /\ reply = lit "<div>- " ++ hostname ++ lit "</div>".
Proof.
  rewrite (addWebSource_run env cfg url w app Happ). simpl.
  destruct (addLoader_resolves env app _ w).
  - destruct (url_hostname env url) as [h|]; split.
    + intros H. injection H as <-. split; [reflexivity|].
      exists h. split; reflexivity.
    + intros [_ [h' [Hh ->]]]. injection Hh as <-. reflexivity.
    + discriminate.
    + intros [_ [h' [Hh _]]]. discriminate.
  - split; [discriminate|]. intros [H _]. discriminate.
Qed.

Lemma web_source_reply_names_the_host_witness :
  fst (RAGService.addWebSource Sample.env Sample.cfg Sample.docs_url
         Sample.booted)
  = Return (lit "<div>- example.com</div>").
Proof.
  apply (proj2 (web_source_reply_names_the_host Sample.env Sample.cfg
                  Sample.docs_url (lit "<div>- example.com</div>")
                  Sample.booted Sample.store eq_refl)).
  split; [reflexivity|].
  exists (lit "example.com"). split; reflexivity.
Defined.

(** C3 as written fails: two chunks of one address are stored and the
    reply is a string that holds neither the address nor the count. *)
Lemma web_source_reply_is_no_confirmation :
  let r := RAGService.addWebSource Sample.env Sample.cfg Sample.docs_url
             Sample.booted in
  let reply := lit "<div>- example.com</div>" in
  fst r = Return reply
  /\ DatabaseService.select_sources Sample.cfg (snd r) = [Sample.docs_url]
  /\ DatabaseService.count Sample.cfg (snd r) = 2%nat
  /\ JStr reply <> Spec.confirmation Sample.docs_url 2
  /\ Spec.is_infix Sample.docs_url reply = false
  /\ Spec.is_infix (num_to_string 2) reply = false.
Proof.
  repeat split; try (vm_compute; reflexivity). discriminate.
Qed.

(** ** Chunk size and overlap *)

Lemma addWebSource_calls (env : Env) (cfg : AppConfig) (url : jsstring)
    (w : World) (app : RagApp) :
  ragApplication w = Some app ->
  calls (snd (RAGService.addWebSource env cfg url w))
  = calls w ++ [CAddLoader (WebLoader url (Config.chunkSize (chat cfg))
                                          (Config.chunkOverlap (chat cfg)))].
Proof.
  intros Happ. rewrite (addWebSource_run env cfg url w app Happ). reflexivity.
Qed.

(** C4, as the code has it.  Chunk size and overlap are never compared:
    start-up does the same whatever they are, and a web ingestion hands
    them to the loader as configured.  With no variable set they are 400
    and 50, which satisfy the constraint. *)
Theorem chunking_is_passed_on_unchecked
    (env : Env) (cfg : AppConfig) (c : ChatConfig) (w : World) :
  Main.initializeApp env (with_chat c cfg) w = Main.initializeApp env cfg w
  /\ (forall url app,
        ragApplication w = Some app ->
        calls (snd (RAGService.addWebSource env (with_chat c cfg) url w))
        = calls w ++ [CAddLoader (WebLoader url (Config.chunkSize c)
                                                (Config.chunkOverlap c))])
  /\ chat (appConfig default_env)
     = {| Config.chunkSize := Num 400; Config.chunkOverlap := Num 50 |}
  /\ overlap_ok (chat (appConfig default_env)) = true.
Proof.
  repeat split.
  intros url app Happ.
  apply (addWebSource_calls env (with_chat c cfg) url w app Happ).
Qed.

Lemma chunking_is_passed_on_unchecked_witness :
  calls (snd (RAGService.addWebSource Sample.env
                (with_chat {| Config.chunkSize := Num 100;
                              Config.chunkOverlap := Num 200 |} Sample.cfg)
                Sample.docs_url Sample.booted))
  = calls Sample.booted
    ++ [CAddLoader (WebLoader Sample.docs_url (Num 100) (Num 200))].
Proof.
  apply (proj1 (proj2 (chunking_is_passed_on_unchecked Sample.env Sample.cfg
           {| Config.chunkSize := Num 100; Config.chunkOverlap := Num 200 |}
           Sample.booted)) Sample.docs_url Sample.store eq_refl).
Defined.

(** C4 as written fails: with an overlap above the chunk size the server
    starts and ingests. *)
Lemma startup_accepts_overlap_above_chunk_size :
  let cfg := appConfig Sample.wide_overlap in
  let boot := Main.initializeApp Sample.env cfg Sample.blank in
  let r := RAGService.addWebSource Sample.env cfg Sample.docs_url (snd boot) in
  chat cfg = {| Config.chunkSize := Num 100; Config.chunkOverlap := Num 200 |}
  /\ overlap_ok (chat cfg) = false
  /\ fst boot = true
  /\ fst r = Return (lit "<div>- example.com</div>")
  /\ calls (snd r)
     = [CBuild (lit "./store/vectors.db"); CMkdir (lit "uploads");
        CAddLoader (WebLoader Sample.docs_url (Num 100) (Num 200))]
  /\ DatabaseService.count cfg (snd r) = 2%nat.
Proof.
  repeat split; vm_compute; reflexivity.
Qed.

(** ** Clearing the store *)

Lemma initialize_run (env : Env) (cfg : AppConfig) (w : World) :
  RAGService.initialize env cfg w =
  let db := path (database cfg) in
  let w1 := called (CBuild db) w in
  if build_fails env then (Throw FailedToInitialize, w1)
  else match fs w !! db with
       | None =>
           (Return tt,
            {| ragApplication := Some {| app_db := db |};
               fs := <[db := DbFile []]> (fs w); calls := calls w1 |})
       | Some (DbFile _) =>
           (Return tt,
            {| ragApplication := Some {| app_db := db |};
               fs := fs w; calls := calls w1 |})
       | Some (Blob _) => (Throw FailedToInitialize, w1)
       end.
Proof.
  unfold RAGService.initialize, try_catch, bind, builder_build, bind, record,
    get_world, called. simpl.
  destruct (build_fails env); [reflexivity|]. simpl.
  destruct (fs w !! path (database cfg)) as [[sz|rows]|]; reflexivity.
Qed.

Lemma clearSources_run (env : Env) (cfg : AppConfig) (w : World) :
  RAGService.clearSources env cfg w =
  match RAGService.initialize env cfg
          (after_unlink env (path (database cfg)) w) with
  | (Return _, w') => (Return tt, w')
  | (Throw _, w') => (Throw FailedToClear, w')
  end.
Proof.
  unfold RAGService.clearSources, try_catch at 1, bind at 1.
  rewrite swallow_unlink.
  destruct (RAGService.initialize env cfg _) as [[[]|e] w']; reflexivity.
Qed.

(** When the platform removes the store file (or there is none) and the
    library builds, [clearSources] returns with an empty store and an
    initialised service. *)
Lemma clearSources_empties_the_store (env : Env) (cfg : AppConfig) (w : World) :
  unlink_denied env (path (database cfg)) = false ->
  build_fails env = false ->
  let r := RAGService.clearSources env cfg w in
  fst r = Return tt
  /\ DatabaseService.count cfg (snd r) = 0%nat
  /\ DatabaseService.select_sources cfg (snd r) = []
  /\ ragApplication (snd r) = Some {| app_db := path (database cfg) |}.
Proof.
  intros Hd Hb r. subst r.
  rewrite clearSources_run, initialize_run. cbv zeta. rewrite Hb.
  rewrite (after_unlink_gone env (path (database cfg)) w Hd).
  unfold DatabaseService.count, DatabaseService.select_sources, db_rows. simpl.
  rewrite lookup_insert_eq. repeat split.
Qed.

(** C5 fails on the code when the platform refuses to remove the store
    file: [clearSources] swallows the refusal, rebuilds on the old file
    and returns normally with both rows still there. *)
Theorem clearSources_keeps_rows_when_unlink_is_refused :
  let env := with_unlink_denied (fun _ => true) Sample.env in
  let r := RAGService.clearSources env Sample.cfg Sample.ingested in
  DatabaseService.count Sample.cfg Sample.ingested = 2%nat
  /\ fst r = Return tt
  /\ DatabaseService.count Sample.cfg (snd r) = 2%nat
  /\ DatabaseService.select_sources Sample.cfg (snd r) = [Sample.docs_url]
  /\ RAGService.isInitialized (snd r) = true
  /\ fst (Main.clear_sources env Sample.cfg Sample.ingested) = Return [].
Proof.
  repeat split; vm_compute; reflexivity.
Qed.

(** ** Requests in flight *)

Import Concurrent.

Lemma str_eqb_refl (a : jsstring) : str_eqb a a = true.
Proof. unfold str_eqb. apply bool_decide_eq_true. reflexivity. Qed.

Lemma in_flight_for_suspend (cfg : AppConfig) (r : Request) (app : RagApp)
    (l : Loader) (s : Server) :
  in_flight_for (source_id r) (suspend r app l s)
  = S (in_flight_for (source_id r) s).
Proof.
  unfold in_flight_for, suspend. simpl.
  rewrite List.filter_app, length_app. simpl.
  rewrite str_eqb_refl. simpl. lia.
Qed.

(** Run to the [await] and then straight on, a request does what the
    sequential function does. *)
Lemma arrive_then_settle (env : Env) (cfg : AppConfig) (r : Request)
    (s : Server) (app : RagApp) :
  ragApplication (world s) = Some app ->
  in_flight s = [] ->
  (exists l, in_flight (arrive env cfg r s)
             = [{| p_request := r; p_app := app; p_loader := l |}]) ->
  settle env 0 (arrive env cfg r s)
  = finish r
      (match r with
       | AddWeb url => RAGService.addWebSource env cfg url
       | AddFile filePath fileType fileName =>
           RAGService.addFileSource env filePath fileType fileName
       end) s.
Proof.
  intros Happ Hidle [l Hl].
  destruct s as [[ra f c] inf rep]. simpl in Happ, Hidle. subst ra inf.
  unfold arrive in *. simpl in *.
  destruct r as [url|filePath fileType fileName].
  - reflexivity.
  - destruct (RAGService.createLoader filePath fileType) as [l'|e] eqn:Hc.
    + unfold settle, suspend, finish, resume. simpl.
      unfold RAGService.addFileSource, bind at 4, get_world. simpl.
      unfold try_catch at 3. unfold bind at 4. rewrite Hc.
      reflexivity.
    + exfalso. unfold finish in Hl. simpl in Hl.
      destruct (bind _ _ _) as [o w']. simpl in Hl. discriminate.
Qed.

(** C2, as the code has it.  The service keeps no mark of what is in
    flight.  On an initialised service a web request, and a file request
    whose loader can be made, is always taken on: nothing is replied, the
    loader goes to the library, the calls already suspended stay
    suspended and the number in flight for that very source grows by
    one.  The only immediate replies of [arrive] are the two errors of
    the sequential code. *)
Theorem ingestion_requests_are_never_turned_away
    (env : Env) (cfg : AppConfig) (s : Server) (app : RagApp)
    (Happ : ragApplication (world s) = Some app) :
  (forall r l,
      match r with
      | AddWeb url =>
          l = WebLoader url (Config.chunkSize (chat cfg))
                            (Config.chunkOverlap (chat cfg))
      | AddFile filePath fileType _ =>
          RAGService.createLoader filePath fileType = Return l
      end ->
      let s' := arrive env cfg r s in
      replies s' = replies s
      /\ in_flight s'
         = in_flight s ++ [{| p_request := r; p_app := app; p_loader := l |}]
      /\ in_flight_for (source_id r) s' = S (in_flight_for (source_id r) s)
      /\ calls (world s') = calls (world s) ++ [CAddLoader l])
  /\ (forall r e,
      In (r, Throw e) (replies (arrive env cfg r s)) ->
      In (r, Throw e) (replies s)
      \/ exists fileName, e = FailedToLoadFile fileName).
Proof.
  split.
  - intros r l Hl s'. subst s'. unfold arrive. rewrite Happ.
    destruct r as [url|filePath fileType fileName].
    + subst l. repeat split. apply (in_flight_for_suspend cfg).
    + rewrite Hl. repeat split. apply (in_flight_for_suspend cfg).
  - intros r e. unfold arrive. rewrite Happ.
    destruct r as [url|filePath fileType fileName]; [left; assumption|].
    destruct (RAGService.createLoader filePath fileType); [left; assumption|].
    unfold finish, bind. rewrite swallow_unlink. simpl.
    intros H. apply in_app_or in H. destruct H as [H|[H|[]]]; [left; exact H|].
    right. exists fileName. congruence.
Qed.

Lemma ingestion_requests_are_never_turned_away_witness :
  in_flight_for Sample.docs_url
    (arrive Sample.env Sample.cfg (AddWeb Sample.docs_url)
       (arrive Sample.env Sample.cfg (AddWeb Sample.docs_url) Sample.idle))
  = 2%nat.
Proof.
  apply (proj1 (proj2 (proj2
    (proj1 (ingestion_requests_are_never_turned_away Sample.env Sample.cfg
              (arrive Sample.env Sample.cfg (AddWeb Sample.docs_url) Sample.idle)
              Sample.store eq_refl)
       (AddWeb Sample.docs_url)
       (WebLoader Sample.docs_url (Num 400) (Num 50)) eq_refl)))).
Defined.

(** C2 as written fails: a second request for an address whose
    ingestion is suspended is taken on like the first, and both write
    their chunks. *)
Lemma same_source_twice_in_flight :
  let r := AddWeb Sample.docs_url in
  let s1 := arrive Sample.env Sample.cfg r Sample.idle in
  let s2 := arrive Sample.env Sample.cfg r s1 in
  let s4 := settle Sample.env 0 (settle Sample.env 0 s2) in
  in_flight_for Sample.docs_url s1 = 1%nat
  /\ in_flight_for Sample.docs_url s2 = 2%nat
  /\ replies s2 = []
  /\ rejected r s2 = false
  /\ DatabaseService.count Sample.cfg (world s2) = 0%nat
  /\ DatabaseService.count Sample.cfg (world s4) = 4%nat
  /\ replies s4 = [(r, Return (lit "<div>- example.com</div>"));
                   (r, Return (lit "<div>- example.com</div>"))].
Proof.
  repeat split; vm_compute; reflexivity.
Qed.

(** ** Unsupported content types *)

Import FileUploadService.

Lemma str_eqb_eq (a b : jsstring) : str_eqb a b = true <-> a = b.
Proof. unfold str_eqb. apply bool_decide_eq_true. Qed.

Lemma type_allowed_recognized (penv : ProcessEnv) (t : jsstring) :
  type_allowed (appConfig penv) t = true <-> In t Spec.recognized.
Proof.
  unfold type_allowed. simpl. rewrite !orb_true_iff, !str_eqb_eq.
  unfold Spec.recognized. simpl. intuition congruence.
Qed.

Lemma createLoader_unsupported (filePath fileType : jsstring) :
  RAGService.createLoader filePath fileType
  = Throw (UnsupportedFileType fileType)
  <-> ~ In fileType Spec.recognized.
Proof.
  split.
  - intros H [<-|[<-|[<-|[]]]]; discriminate H.
  - intros H. unfold RAGService.createLoader.
    destruct (str_eqb fileType (lit "application/pdf")) eqn:E1.
    { exfalso. apply H. apply str_eqb_eq in E1. left. congruence. }
    destruct (str_eqb fileType (lit "text/markdown")) eqn:E2.
    { exfalso. apply H. apply str_eqb_eq in E2. right. left. congruence. }
    destruct (str_eqb fileType (lit "text/plain")) eqn:E3.
    { exfalso. apply H. apply str_eqb_eq in E3. right. right. left. congruence. }
    reflexivity.
Qed.

Lemma createLoader_recognized (filePath fileType : jsstring) :
  In fileType Spec.recognized ->
  RAGService.createLoader filePath fileType
  = if str_eqb fileType (lit "application/pdf")
    then Return (PdfLoader filePath)
    else Return (MarkdownLoader filePath).
Proof.
  intros [<-|[<-|[<-|[]]]]; reflexivity.
Qed.

Lemma saveFile_errors (env : Env) (cfg : AppConfig) (f : File) (w : World)
    (e : Err) :
  fst (saveFile env cfg f w) = Throw e ->
  validateFile cfg f = Invalid e \/ e = FailedToSave.
Proof.
  unfold saveFile. destruct (validateFile cfg f) as [|e0].
  - unfold try_catch. destruct (bind _ _ w) as [[u|e1] w']; simpl.
    + discriminate.
    + intros H. right. congruence.
  - simpl. intros H. left. congruence.
Qed.

Lemma addFileSource_errors (env : Env) (filePath fileType fileName : jsstring)
    (w : World) (e : Err) :
  fst (RAGService.addFileSource env filePath fileType fileName w) = Throw e ->
  e = RagNotInitialized \/ e = FailedToLoadFile fileName.
Proof.
  destruct (ragApplication w) as [app|] eqn:Happ.
  - rewrite (addFileSource_run env _ _ _ w app Happ).
    destruct (RAGService.createLoader filePath fileType) as [l|e0]; simpl.
    + destruct (addLoader_resolves env app l w); [discriminate|].
      intros H. right. congruence.
    + intros H. right. congruence.
  - unfold RAGService.addFileSource, bind, get_world. rewrite Happ. simpl.
    intros H. left. congruence.
Qed.

Lemma validateFile_kinds (penv : ProcessEnv) (f : File) (e : Err) :
  validateFile (appConfig penv) f = Invalid e ->
  Spec.is_unsupported_kind e = true ->
  ~ In (type f) Spec.recognized.
Proof.
  unfold validateFile.
  destruct (exceeds _ _); [intros H; injection H as <-; discriminate|].
  destruct (type_allowed (appConfig penv) (type f)) eqn:Ht; simpl.
  - destruct (length (name f) =? 0)%nat; [|discriminate].
    intros H; injection H as <-; discriminate.
  - intros _ _ Hin. change (In (type f) Spec.recognized) in Hin.
    apply (type_allowed_recognized penv) in Hin. congruence.
Qed.

(** C7, as the code has it.  For an upload within the size limit the
    request fails with an unsupported-type error exactly when the declared
    type is outside the recognized set, and then before anything is
    written or handed to the library: the world is untouched and the
    error names the type and the allowed ones.  [createLoader] throws its
    own unsupported-type error exactly outside that set, and inside it
    picks the PDF loader for application/pdf and the markdown loader
    otherwise. *)
Theorem unsupported_type_is_rejected_up_front
    (env : Env) (penv : ProcessEnv) (f : File) (w : World)
    (Hsize : exceeds (size f) (maxFileSize (uploads (appConfig penv))) = false) :
  let cfg := appConfig penv in
  (~ In (type f) Spec.recognized ->
     Main.add_file_try env cfg (Some f) w
     = (Throw (FileTypeNotSupported (type f) Spec.recognized), w))
  /\ (In (type f) Spec.recognized ->
      forall e, fst (Main.add_file_try env cfg (Some f) w) = Throw e ->
                Spec.is_unsupported_kind e = false)
  /\ (forall filePath fileType,
        (RAGService.createLoader filePath fileType
         = Throw (UnsupportedFileType fileType)
         <-> ~ In fileType Spec.recognized)
        /\ (In fileType Spec.recognized ->
            RAGService.createLoader filePath fileType
            = if str_eqb fileType (lit "application/pdf")
              then Return (PdfLoader filePath)
              else Return (MarkdownLoader filePath))).
Proof.
  intros cfg. subst cfg. split; [|split].
  - intros Hn. unfold Main.add_file_try, bind, saveFile, validateFile.
    rewrite Hsize.
    destruct (type_allowed (appConfig penv) (type f)) eqn:Ht.
    + exfalso. apply Hn. apply (type_allowed_recognized penv). exact Ht.
    + reflexivity.
  - intros Hin e He.
    destruct (Spec.is_unsupported_kind e) eqn:Hk; [exfalso|reflexivity].
    unfold Main.add_file_try, bind in He.
    destruct (saveFile env (appConfig penv) f w) as [[u|e1] w1] eqn:Hs.
    + apply addFileSource_errors in He. destruct He as [->| ->]; discriminate.
    + simpl in He. injection He as ->.
      assert (Hs' : fst (saveFile env (appConfig penv) f w) = Throw e)
        by (rewrite Hs; reflexivity).
      apply saveFile_errors in Hs'. destruct Hs' as [Hv| ->]; [|discriminate].
      exact (validateFile_kinds penv f e Hv Hk Hin).
  - intros filePath fileType. split.
    + apply createLoader_unsupported.
    + apply createLoader_recognized.
Qed.

Lemma unsupported_type_is_rejected_up_front_witness :
  Main.add_file_try Sample.env Sample.cfg
    (Some {| name := lit "scan.png"; type := lit "image/png"; size := 2048 |})
    Sample.booted
  = (Throw (FileTypeNotSupported (lit "image/png") Spec.recognized),
     Sample.booted).
Proof.
  apply (proj1 (unsupported_type_is_rejected_up_front Sample.env default_env
           {| name := lit "scan.png"; type := lit "image/png"; size := 2048 |}
           Sample.booted eq_refl)).
  intros [H|[H|[H|[]]]]; discriminate H.
Defined.

(** C7 as written fails: a picture above the size limit is turned down
    for its size, and [addFileSource] itself reports an unsupported type
    as a failed load. *)
Lemma oversized_unsupported_file_gets_another_error :
  let direct := RAGService.addFileSource Sample.env
                  (lit "/app/uploads/scan_1.png") (lit "image/png")
                  (lit "scan_1.png") Sample.booted in
  ~ In (type Sample.scan) Spec.recognized
  /\ Main.add_file_try Sample.env Sample.cfg (Some Sample.scan) Sample.booted
     = (Throw (FileTooLarge (Num (10 * 1024 * 1024))), Sample.booted)
  /\ Spec.is_unsupported_kind (FileTooLarge (Num (10 * 1024 * 1024))) = false
  /\ fst direct = Throw (FailedToLoadFile (lit "scan_1.png"))
  /\ Spec.is_unsupported_kind (FailedToLoadFile (lit "scan_1.png")) = false.
Proof.
  repeat split; try (vm_compute; reflexivity).
  intros [H|[H|[H|[]]]]; discriminate H.
Qed.

(** ** Where an upload is written *)

Lemma safe_char_not_separator (c : N) :
  is_safe_char c = true -> c <> c_slash /\ c <> c_backslash.
Proof.
  intros H. split; intros ->; vm_compute in H; discriminate.
Qed.

Lemma generateSafeFilename_no_separator (originalName : jsstring) (timestamp : Z) :
  ~ In c_slash (generateSafeFilename originalName timestamp)
  /\ ~ In c_backslash (generateSafeFilename originalName timestamp).
Proof.
  pose proof (generateSafeFilename_chars originalName timestamp) as H.
  rewrite List.Forall_forall in H.
  split; intros Hin; apply H in Hin; vm_compute in Hin; discriminate.
Qed.

Lemma generateSafeFilename_plain (originalName : jsstring) (timestamp : Z) :
  generateSafeFilename originalName timestamp <> []
  /\ generateSafeFilename originalName timestamp <> dot
  /\ generateSafeFilename originalName timestamp <> dotdot.
Proof.
  pose proof (generateSafeFilename_underscore originalName timestamp) as H.
  repeat split; intros E; rewrite E in H; simpl in H;
    repeat destruct H as [H|H]; try discriminate H; exact H.
Qed.

(** *** Splitting and joining on the separator *)

Lemma split_app_sep sep (a b : jsstring) :
  split sep (a ++ sep :: b) = split sep a ++ split sep b.
Proof.
  induction a as [|c a IH]; simpl.
  - rewrite N.eqb_refl. reflexivity.
  - destruct (N.eqb c sep); [rewrite IH; reflexivity|].
    rewrite IH. pose proof (split_nonempty sep a) as Hn.
    destruct (split sep a); [contradiction|reflexivity].
Qed.

Lemma split_join sep (parts : list jsstring) :
  parts <> [] ->
  Forall (fun s => ~ In sep s) parts ->
  split sep (join [sep] parts) = parts.
Proof.
  induction parts as [|p ps IH]; [contradiction|]. intros _ H.
  inversion H as [|? ? Hp Hps]; subst.
  destruct ps as [|p' ps'].
  - simpl. apply split_single. exact Hp.
  - change (join [sep] (p :: p' :: ps'))
      with (p ++ sep :: join [sep] (p' :: ps')).
    rewrite split_app_sep, (split_single _ _ Hp), IH by (discriminate || assumption).
    reflexivity.
Qed.

(** *** Normalized stacks *)

Lemma str_eqb_neq (a b : jsstring) : a <> b -> str_eqb a b = false.
Proof. intros H. unfold str_eqb. apply bool_decide_eq_false. exact H. Qed.

Lemma norm_step_plain A stack (t : jsstring) :
  plain_segment t -> norm_step A stack t = t :: stack.
Proof.
  intros [[H1 [H2 _]] H3]. unfold norm_step.
  rewrite (str_eqb_neq _ _ H1), (str_eqb_neq _ _ H2), (str_eqb_neq _ _ H3).
  reflexivity.
Qed.

Lemma norm_step_skip A stack (t : jsstring) :
  t = [] \/ t = dot -> norm_step A stack t = stack.
Proof.
  intros [-> | ->]; reflexivity.
Qed.

Lemma norm_step_clean A stack (t : jsstring) :
  clean A stack -> ~ In c_slash t -> clean A (norm_step A stack t).
Proof.
  intros Hc Hs. unfold norm_step.
  destruct (str_eqb t []) eqn:E1; [exact Hc|].
  destruct (str_eqb t dot) eqn:E2; [exact Hc|]. simpl.
  assert (Hk : kept_segment t).
  { repeat split; [intros ->; discriminate E1 | intros ->; discriminate E2 | exact Hs]. }
  destruct (str_eqb t dotdot) eqn:E3.
  - apply str_eqb_eq in E3. subst t.
    destruct stack as [|top below].
    + destruct A; simpl; [|exact I].
      repeat split; try discriminate; try (intros [H|[]]; discriminate H); auto.
    + destruct Hc as [Htop [Hdd Hbelow]].
      destruct (str_eqb top dotdot) eqn:E4.
      * apply str_eqb_eq in E4. subst top.
        destruct (Hdd eq_refl) as [HA Hall]. subst A. simpl.
        split; [exact Hk|]. split.
        -- intros _. split; [reflexivity|].
           constructor; [reflexivity|exact Hall].
        -- split; [exact Htop|]. split; [exact Hdd|exact Hbelow].
      * exact Hbelow.
  - simpl. split; [exact Hk|]. split; [|exact Hc].
    intros ->. discriminate E3.
Qed.

Lemma fold_norm_clean A (segs : list jsstring) stack :
  clean A stack -> Forall (fun s => ~ In c_slash s) segs ->
  clean A (fold_left (norm_step A) segs stack).
Proof.
  revert stack. induction segs as [|t segs IH]; intros stack Hc Hs; [exact Hc|].
  inversion Hs; subst. simpl. apply IH; [|assumption].
  apply norm_step_clean; assumption.
Qed.

Lemma norm_stack_clean A (p : jsstring) : clean A (norm_stack A [] p).
Proof.
  apply fold_norm_clean; [exact I | apply split_parts_no_sep].
Qed.

Lemma clean_kept A stack : clean A stack -> Forall kept_segment stack.
Proof.
  induction stack as [|t below IH]; simpl; [constructor|].
  intros [Hk [_ Hb]]. constructor; [exact Hk | exact (IH Hb)].
Qed.

(** Running a clean stack through the normalizer again gives it back. *)
Lemma replay_clean A stack :
  clean A stack -> fold_left (norm_step A) (rev stack) [] = stack.
Proof.
  induction stack as [|t below IH]; [reflexivity|].
  intros [Hk [Hdd Hb]]. simpl. rewrite fold_left_app, (IH Hb). simpl.
  destruct (decide (t = dotdot)) as [->|Hne].
  - destruct (Hdd eq_refl) as [-> Hall].
    destruct below as [|top below']; [reflexivity|].
    inversion Hall; subst. reflexivity.
  - apply norm_step_plain. split; assumption.
Qed.

Lemma join_kept_nonempty (parts : list jsstring) :
  parts <> [] -> Forall kept_segment parts -> join [c_slash] parts <> [].
Proof.
  destruct parts as [|p ps]; [contradiction|]. intros _ H.
  inversion H as [|? ? [Hp _] _]; subst.
  destruct p; [contradiction|]. destruct ps; discriminate.
Qed.

Lemma join_kept_not_absolute (parts : list jsstring) :
  Forall kept_segment parts -> is_absolute (join [c_slash] parts) = false.
Proof.
  destruct parts as [|p ps]; [reflexivity|]. intros H.
  inversion H as [|? ? [Hp [_ Hs]] _]; subst.
  destruct p as [|c p]; [contradiction|].
  assert (Hc : N.eqb c c_slash = false).
  { apply N.eqb_neq. intros ->. apply Hs. left. reflexivity. }
  destruct ps; simpl; exact Hc.
Qed.

(** The shape of a normalized path. *)
Lemma normalize_form (p : jsstring) :
  p <> [] ->
  let stack := norm_stack (negb (is_absolute p)) [] p in
  normalize p =
  match stack with
  | [] => if is_absolute p then [c_slash]
          else if has_trailing_slash p then lit "./" else dot
  | _ => (if is_absolute p then [c_slash] else [])
           ++ join [c_slash] (rev stack)
           ++ (if has_trailing_slash p then [c_slash] else [])
  end.
Proof.
  intros Hp stack. unfold normalize. destruct p as [|c p]; [contradiction|].
  fold stack.
  destruct stack as [|t below] eqn:E; [reflexivity|].
  assert (Hne : join [c_slash] (rev (t :: below)) <> []).
  { apply join_kept_nonempty.
    - simpl. destruct (rev below); discriminate.
    - apply Forall_rev. apply (clean_kept (negb (is_absolute (c :: p)))).
      rewrite <- E. apply norm_stack_clean. }
  destruct (join [c_slash] (rev (t :: below))); [contradiction|reflexivity].
Qed.

Lemma normalize_nonempty (p : jsstring) : normalize p <> [].
Proof.
  destruct (decide (p = [])) as [->|Hp]; [discriminate|].
  rewrite (normalize_form p Hp).
  pose proof (norm_stack_clean (negb (is_absolute p)) p) as Hc.
  destruct (norm_stack _ [] p) as [|t below].
  - destruct (is_absolute p); [discriminate|].
    destruct (has_trailing_slash p); discriminate.
  - destruct (is_absolute p); [discriminate|].
    intros H. apply app_eq_nil in H. destruct H as [_ H].
    apply app_eq_nil in H. destruct H as [H _]. revert H.
    apply join_kept_nonempty.
    + simpl. destruct (rev below); discriminate.
    + apply Forall_rev. exact (clean_kept _ _ Hc).
Qed.

Lemma normalize_absolute (p : jsstring) :
  p <> [] -> is_absolute (normalize p) = is_absolute p.
Proof.
  intros Hp. rewrite (normalize_form p Hp).
  pose proof (norm_stack_clean (negb (is_absolute p)) p) as Hc.
  destruct (norm_stack _ [] p) as [|t below].
  - destruct (is_absolute p); [reflexivity|].
    destruct (has_trailing_slash p); reflexivity.
  - destruct (is_absolute p); [reflexivity|].
    change ([] ++ join [c_slash] (rev (t :: below))
               ++ (if has_trailing_slash p then [c_slash] else []))
      with (join [c_slash] (rev (t :: below))
               ++ (if has_trailing_slash p then [c_slash] else [])).
    pose proof (join_kept_not_absolute (rev (t :: below))
                  (Forall_rev (clean_kept _ _ Hc))) as Hj.
    pose proof (join_kept_nonempty (rev (t :: below))) as Hn.
    destruct (join [c_slash] (rev (t :: below))) as [|c j].
    + exfalso. apply Hn; [|apply Forall_rev; exact (clean_kept _ _ Hc)|reflexivity].
      simpl. destruct (rev below); discriminate.
    + exact Hj.
Qed.

Lemma fold_norm_skip B (segs : list jsstring) stack :
  Forall (fun t => t = [] \/ t = dot) segs ->
  fold_left (norm_step B) segs stack = stack.
Proof.
  revert stack. induction segs as [|t segs IH]; intros stack H; [reflexivity|].
  inversion H; subst. simpl. rewrite norm_step_skip by assumption.
  apply IH. assumption.
Qed.

(** Feeding a normalized path to the normalizer replays its stack. *)
Lemma renormalize (p : jsstring) B start :
  p <> [] ->
  fold_left (norm_step B) (split c_slash (normalize p)) start
  = fold_left (norm_step B)
      (rev (norm_stack (negb (is_absolute p)) [] p)) start.
Proof.
  intros Hp. rewrite (normalize_form p Hp).
  pose proof (norm_stack_clean (negb (is_absolute p)) p) as Hc.
  destruct (norm_stack _ [] p) as [|t below] eqn:E.
  - destruct (is_absolute p); [reflexivity|].
    destruct (has_trailing_slash p); reflexivity.
  - set (segs := rev (t :: below)) in *.
    assert (Hsegs : split c_slash (join [c_slash] segs) = segs).
    { apply split_join.
      - subst segs. simpl. destruct (rev below); discriminate.
      - subst segs. apply Forall_rev.
        eapply List.Forall_impl; [|exact (clean_kept _ _ Hc)].
        intros a [_ [_ Ha]]. exact Ha. }
    destruct (is_absolute p), (has_trailing_slash p); simpl app.
    + change (c_slash :: join [c_slash] segs ++ [c_slash])
        with ([] ++ c_slash :: (join [c_slash] segs ++ c_slash :: [])).
      rewrite !split_app_sep, Hsegs. simpl split.
      rewrite !fold_left_app. reflexivity.
    + rewrite app_nil_r.
      change (c_slash :: join [c_slash] segs)
        with ([] ++ c_slash :: join [c_slash] segs).
      rewrite split_app_sep, Hsegs. reflexivity.
    + rewrite split_app_sep, Hsegs. simpl split.
      rewrite fold_left_app. reflexivity.
    + rewrite app_nil_r, Hsegs. reflexivity.
Qed.

Lemma entries_normalize (p : jsstring) :
  p <> [] ->
  entries (normalize p) = rev (norm_stack (negb (is_absolute p)) [] p).
Proof.
  intros Hp. unfold entries. rewrite (normalize_absolute p Hp).
  unfold norm_stack at 1. rewrite (renormalize p _ [] Hp).
  rewrite replay_clean by apply norm_stack_clean. reflexivity.
Qed.

Lemma path_join_pair (a b : jsstring) :
  b <> [] -> path_join [a; b] = normalize (joined a b).
Proof.
  intros Hb. unfold path_join, joined. simpl.
  destruct a as [|c a]; destruct b as [|d b]; try contradiction; reflexivity.
Qed.

Lemma joined_nonempty (a b : jsstring) : b <> [] -> joined a b <> [].
Proof.
  intros Hb. unfold joined. destruct a; [exact Hb|discriminate].
Qed.

Lemma joined_absolute (a b : jsstring) :
  is_absolute (joined a b)
  = match a with [] => is_absolute b | _ => is_absolute a end.
Proof. destruct a; reflexivity. Qed.

Lemma joined_stack A (a b : jsstring) :
  norm_stack A [] (joined a b)
  = fold_left (norm_step A) (split c_slash b)
      match a with [] => [] | _ => norm_stack A [] a end.
Proof.
  unfold joined, norm_stack. destruct a as [|c a]; [reflexivity|].
  rewrite split_app_sep, fold_left_app. reflexivity.
Qed.

Lemma entries_path_join_reads (cwd x : jsstring) stack :
  reads_as x stack ->
  entries (path_join [cwd; x])
  = rev (fold_left (norm_step (negb (is_absolute (joined cwd x)))) (rev stack)
           match cwd with
           | [] => []
           | _ => norm_stack (negb (is_absolute (joined cwd x))) [] cwd
           end).
Proof.
  intros [Hx Hr]. rewrite (path_join_pair cwd x Hx).
  rewrite (entries_normalize _ (joined_nonempty cwd x Hx)).
  rewrite joined_stack, Hr. reflexivity.
Qed.

Lemma plain_not_absolute (f : jsstring) :
  plain_segment f -> is_absolute f = false.
Proof.
  intros [[Hne [_ Hs]] _]. destruct f as [|c f]; [reflexivity|]. simpl.
  apply N.eqb_neq. intros ->. apply Hs. left. reflexivity.
Qed.

Lemma plain_stack A (f : jsstring) start :
  plain_segment f ->
  fold_left (norm_step A) (split c_slash f) start = f :: start.
Proof.
  intros Hf. destruct Hf as [[H1 [H2 H3]] H4].
  rewrite (split_single _ _ H3). simpl.
  apply norm_step_plain. repeat split; assumption.
Qed.

(** The uploads directory and a file in it, as [path.join] returns them. *)
Lemma dir_reads (dir : jsstring) :
  reads_as (path_join [dir])
    match dir with [] => [] | _ => norm_stack (negb (is_absolute dir)) [] dir end
  /\ is_absolute (path_join [dir]) = is_absolute dir.
Proof.
  destruct dir as [|c dir].
  - split; [split; [discriminate|reflexivity]|reflexivity].
  - set (d := c :: dir). assert (Hd : d <> []) by discriminate.
    change (path_join [d]) with (normalize d).
    split; [split|].
    + apply normalize_nonempty.
    + intros B start. apply renormalize. exact Hd.
    + apply normalize_absolute. exact Hd.
Qed.

Lemma file_reads (dir f : jsstring) :
  plain_segment f ->
  reads_as (path_join [dir; f])
    (f :: match dir with
          | [] => []
          | _ => norm_stack (negb (is_absolute dir)) [] dir
          end)
  /\ is_absolute (path_join [dir; f]) = is_absolute dir.
Proof.
  intros Hf.
  assert (Hne : f <> []) by (destruct Hf as [[H _] _]; exact H).
  rewrite (path_join_pair dir f Hne).
  pose proof (joined_nonempty dir f Hne) as Hj.
  assert (Habs : is_absolute (joined dir f) = is_absolute dir).
  { rewrite joined_absolute. destruct dir; [|reflexivity].
    apply plain_not_absolute. exact Hf. }
  split; [split|].
  - apply normalize_nonempty.
  - intros B start. rewrite (renormalize _ B start Hj).
    rewrite joined_stack, (plain_stack _ f _ Hf), Habs.
    destruct dir; reflexivity.
  - rewrite (normalize_absolute _ Hj). exact Habs.
Qed.

(** A plain name joined to a directory and then to the working
    directory lies right below that directory. *)
Lemma entries_of_saved_file (cwd dir f : jsstring) :
  plain_segment f ->
  entries (path_join [cwd; path_join [dir; f]])
  = entries (path_join [cwd; path_join [dir]]) ++ [f].
Proof.
  intros Hf.
  destruct (file_reads dir f Hf) as [Hq Haq].
  destruct (dir_reads dir) as [Hd Had].
  rewrite (entries_path_join_reads cwd _ _ Hq).
  rewrite (entries_path_join_reads cwd _ _ Hd).
  rewrite !joined_absolute, Haq, Had.
  change (rev (f :: ?t)) with (rev t ++ [f]).
  simpl rev at 2. rewrite fold_left_app. simpl fold_left at 1.
  rewrite (norm_step_plain _ _ f Hf). reflexivity.
Qed.

Lemma saveFile_success (env : Env) (cfg : AppConfig) (file : File)
    (w w' : World) (uf : UploadedFile) :
  saveFile env cfg file w = (Return uf, w') ->
  let f := generateSafeFilename (name file) (now env) in
  let target := path_join [cwd env; path_join [uploadsDir cfg; f]] in
  u_name uf = f /\ u_path uf = target
  /\ fs w' = <[target := Blob (size file)]> (fs w)
  /\ calls w' = calls w ++ [CMkdir (uploadsDir cfg); CWrite target].
Proof.
  unfold saveFile. destruct (validateFile cfg file); [|discriminate].
  unfold try_catch, bind, FileUploadService.initialize, try_catch, fs_mkdir,
    bun_write, bind, record, get_world, set_fs. simpl.
  destruct (mkdir_fails env); [discriminate|]. simpl.
  destruct (write_fails env); [discriminate|]. simpl.
  intros H. injection H as <- <-. simpl.
  rewrite <- app_assoc. repeat split.
Qed.

(** C10.  Whatever name the client sends and whatever the clock says,
    the name an upload is saved under is made of ASCII letters, digits,
    dots, dashes and underscores only: every other code unit of the
    original has become an underscore, and the time stamp stands right
    before the extension (or at the end when there is none).  It holds
    no slash and no backslash, and the path [saveFile] writes to is the
    uploads directory followed by that one name. *)
Theorem upload_is_saved_under_a_safe_name
    (env : Env) (cfg : AppConfig) (file : File) (w : World) :
  let f := generateSafeFilename (name file) (now env) in
  let target := path_join [cwd env; path_join [uploadsDir cfg; f]] in
  Forall (fun c => is_safe_char c = true) f
  /\ ~ In c_slash f /\ ~ In c_backslash f
  /\ length (replace_unsafe (name file)) = length (name file)
  /\ (forall i c, name file !! i = Some c ->
        replace_unsafe (name file) !! i
        = Some (if in_class c then c else c_underscore))
  /\ ((~ In c_dot (replace_unsafe (name file))
       /\ f = replace_unsafe (name file) ++ lit "_" ++ num_to_string (now env))
      \/ (exists stem ext,
            replace_unsafe (name file) = stem ++ lit "." ++ ext
            /\ ~ In c_dot ext
            /\ f = stem ++ lit "_" ++ num_to_string (now env)
                     ++ lit "." ++ ext))
  /\ entries target
     = entries (path_join [cwd env; path_join [uploadsDir cfg]]) ++ [f]
  /\ (forall uf w',
        saveFile env cfg file w = (Return uf, w') ->
        u_name uf = f /\ u_path uf = target
        /\ fs w' = <[target := Blob (size file)]> (fs w)).
Proof.
  intros f target.
  pose proof (generateSafeFilename_no_separator (name file) (now env)) as [Hs Hb].
  pose proof (generateSafeFilename_plain (name file) (now env)) as [H1 [H2 H3]].
  split; [apply generateSafeFilename_chars|].
  split; [exact Hs|]. split; [exact Hb|].
  split; [apply length_map|].
  split.
  { intros i c Hi. unfold replace_unsafe. rewrite list_lookup_fmap, Hi.
    reflexivity. }
  split; [apply generateSafeFilename_shape|].
  split.
  { apply entries_of_saved_file. repeat split; assumption. }
  intros uf w' Hrun.
  destruct (saveFile_success env cfg file w w' uf Hrun) as [Ha [Hb' [Hc _]]].
  repeat split; assumption.
Qed.

Lemma upload_is_saved_under_a_safe_name_witness :
  Sample.notes_path
  = path_join [cwd Sample.env;
               path_join [uploadsDir Sample.cfg;
                          generateSafeFilename (name Sample.notes)
                                               (now Sample.env)]].
Proof.
  pose proof (upload_is_saved_under_a_safe_name Sample.env Sample.cfg
                Sample.notes Sample.booted) as H.
  cbv zeta in H.
  destruct H as [_ [_ [_ [_ [_ [_ [_ H]]]]]]].
  exact (proj1 (proj2 (H {| u_name := Sample.notes_name;
                            u_type := lit "text/markdown";
                            u_size := 12; u_path := Sample.notes_path |}
                         Sample.uploaded eq_refl))).
Defined.

Example saved_file_entries :
  entries Sample.notes_path
  = [lit "app"; lit "uploads"; lit "notes_1700000000000.md"].
Proof. reflexivity. Qed.

(** ** The service stays initialised *)

Import Main.

Lemma keeps_ret {A} (a : A) : keeps_app (ret a).
Proof. intros w H. exact H. Qed.

Lemma keeps_throw {A} (e : Err) : keeps_app (@throw A e).
Proof. intros w H. exact H. Qed.

Lemma keeps_bind {A B} (c : Eff A) (k : A -> Eff B) :
  keeps_app c -> (forall a, keeps_app (k a)) -> keeps_app (bind c k).
Proof.
  intros Hc Hk w H. unfold bind. specialize (Hc w H).
  destruct (c w) as [[a|e] w']; simpl in *; [apply Hk|]; exact Hc.
Qed.

Lemma keeps_try_catch {A} (c : Eff A) (h : Err -> Eff A) :
  keeps_app c -> (forall e, keeps_app (h e)) -> keeps_app (try_catch c h).
Proof.
  intros Hc Hh w H. unfold try_catch. specialize (Hc w H).
  destruct (c w) as [[a|e] w']; simpl in *; [|apply Hh]; exact Hc.
Qed.

Lemma keeps_record (c : Call) : keeps_app (record c).
Proof. intros w H. exact H. Qed.

Lemma keeps_set_fs f : keeps_app (set_fs f).
Proof. intros w H. exact H. Qed.

Lemma keeps_set_app a : keeps_app (set_app a).
Proof. intros w H. reflexivity. Qed.

Lemma keeps_get_world : keeps_app get_world.
Proof. intros w H. exact H. Qed.

Lemma keeps_pure {A} (o : Outcome A) : keeps_app (fun w => (o, w)).
Proof. intros w H. exact H. Qed.

Create HintDb keeps.
#[local] Hint Resolve keeps_ret keeps_throw keeps_record keeps_set_fs
  keeps_set_app keeps_get_world keeps_pure : keeps.

(** Break a computation into its binds and branches. *)
Ltac keeps :=
  repeat first
    [ progress auto with keeps
    | apply keeps_bind; [|intros ?]
    | apply keeps_try_catch; [|intros ?]
    | match goal with
      | |- keeps_app (match ?x with _ => _ end) => destruct x
      | |- keeps_app (if ?b then _ else _) => destruct b
      | |- keeps_app (let '(_, _) := ?x in _) => destruct x
      end ].

Lemma keeps_fs_unlink env p : keeps_app (fs_unlink env p).
Proof. unfold fs_unlink. keeps. Qed.

Lemma keeps_app_addLoader env app l : keeps_app (app_addLoader env app l).
Proof. unfold app_addLoader, addLoader_settle. keeps. Qed.

Lemma keeps_initialize env cfg : keeps_app (RAGService.initialize env cfg).
Proof. unfold RAGService.initialize, builder_build. keeps. Qed.

#[local] Hint Resolve keeps_fs_unlink keeps_app_addLoader keeps_initialize
  : keeps.

Lemma keeps_handle env cfg op : keeps_app (handle env cfg op).
Proof.
  destruct op as [url|file| |query]; simpl.
  - unfold add_source, RAGService.addWebSource, url_hostname_of. keeps.
  - unfold add_file, add_file_try, saveFile, FileUploadService.initialize,
      fs_mkdir, bun_write, RAGService.addFileSource. keeps.
  - unfold clear_sources, RAGService.clearSources. keeps.
  - unfold chat, RAGService.query, app_query. keeps.
Qed.

(** A server that listens has an initialised service, and no request
    takes the application away again. *)
Lemma initializeApp_initialized (env : Env) (cfg : AppConfig) (w : World) :
  fst (initializeApp env cfg w) = true ->
  RAGService.isInitialized (snd (initializeApp env cfg w)) = true.
Proof.
  unfold initializeApp, bind. rewrite initialize_run. cbv zeta.
  destruct (build_fails env); [discriminate|].
  destruct (fs w !! path (database cfg)) as [[sz|rows]|]; try discriminate;
    unfold FileUploadService.initialize, try_catch, fs_mkdir, bind, record;
    simpl; destruct (mkdir_fails env); simpl; (discriminate || reflexivity).
Qed.

Lemma reachable_initialized (cfg : AppConfig) (w : World) :
  reachable cfg w -> exists app, ragApplication w = Some app.
Proof.
  intros H.
  assert (Hi : RAGService.isInitialized w = true).
  { induction H as [env w0 Hboot|env op w Hr IH].
    - apply initializeApp_initialized. exact Hboot.
    - apply keeps_handle. exact IH. }
  unfold RAGService.isInitialized in Hi.
  destruct (ragApplication w) as [app|]; [exists app; reflexivity|discriminate].
Qed.

(** ** The embedding at work *)

Example safe_name_report :
  generateSafeFilename (lit "my report (v2).pdf") 1700000000000
  = lit "my_report__v2__1700000000000.pdf".
Proof. reflexivity. Qed.

Example safe_name_traversal :
  generateSafeFilename (lit "../../etc/passwd") 17
  = lit ".._._17._etc_passwd".
Proof. reflexivity. Qed.

Example safe_name_without_extension :
  generateSafeFilename (lit "README") 5 = lit "README_5".
Proof. reflexivity. Qed.

Example join_climbs :
  path_join [lit "/app/x/"; path_join [lit "../../../uploads/./y//"; lit ".."]]
  = lit "/uploads".
Proof. reflexivity. Qed.

Example trim_example : trim (lit "  why? ") = lit "why?".
Proof. reflexivity. Qed.

Example listing_after_two_ingestions :
  let w := snd (RAGService.addFileSource Sample.env Sample.notes_path
                  (lit "text/markdown") Sample.notes_name
                  (snd (RAGService.addWebSource Sample.env Sample.cfg
                          Sample.docs_url Sample.uploaded))) in
  DatabaseService.getSources Sample.env Sample.cfg w
  = [{| DatabaseService.item_source := Sample.docs_url;
        DatabaseService.displayName := lit "example.com";
        DatabaseService.icon := [55356; 57104];
        DatabaseService.item_type := DatabaseService.web |};
     {| DatabaseService.item_source := Sample.notes_path;
        DatabaseService.displayName := Sample.notes_name;
        DatabaseService.icon := [55357; 56541];
        DatabaseService.item_type := DatabaseService.markdown |}]
  /\ DatabaseService.count Sample.cfg w = 4%nat.
Proof. split; vm_compute; reflexivity. Qed.

(* ===================================================================== *)
(** * Further properties of the services *)
(* ===================================================================== *)

(** ** Reading a saved name back *)

Lemma lit_inj (a b : string) : lit a = lit b -> a = b.
Proof.
  unfold lit. intros H.
  assert (Hl : list_ascii_of_string a = list_ascii_of_string b).
  { revert H. generalize (list_ascii_of_string a) (list_ascii_of_string b).
    induction l as [|x l IH]; intros [|y l'] H; try discriminate; [reflexivity|].
    simpl in H. injection H as Hxy Hl. f_equal; [|apply IH; exact Hl].
    rewrite <- (ascii_N_embedding x), <- (ascii_N_embedding y), Hxy.
    reflexivity. }
  rewrite <- (string_of_list_ascii_of_string a),
          <- (string_of_list_ascii_of_string b), Hl.
  reflexivity.
Qed.

Lemma to_int_proper (z : Z) :
  Z.to_int z <> Decimal.Pos Decimal.Nil /\ Z.to_int z <> Decimal.Neg Decimal.Nil.
Proof.
  destruct z as [|p|p]; simpl; split; try discriminate;
    intros H; injection H as H; exact (DecimalPos.Unsigned.to_uint_nonnil p H).
Qed.

Lemma num_to_string_inj (a b : Z) : num_to_string a = num_to_string b -> a = b.
Proof.
  unfold num_to_string. intros H. apply lit_inj in H.
  apply DecimalZ.to_int_inj.
  destruct (to_int_proper a) as [Ha1 Ha2], (to_int_proper b) as [Hb1 Hb2].
  pose proof (NilZero.isi _ Ha1 Ha2) as Ia.
  pose proof (NilZero.isi _ Hb1 Hb2) as Ib.
  rewrite H in Ia. congruence.
Qed.

Lemma num_to_string_digits (z : Z) :
  (0 <= z)%Z -> Forall (fun c => is_digit c = true) (num_to_string z).
Proof.
  intros Hz. unfold num_to_string.
  destruct z as [|p|p]; [repeat constructor| |lia].
  simpl. unfold NilZero.string_of_uint.
  destruct (Pos.to_uint p); [repeat constructor|apply uint_digits ..].
Qed.

Section Spans.

Variable P : N -> Prop.

(** A run of [P] that stops at a unit outside [P] is read off in one way. *)
Lemma span_unique (a b r r' : jsstring) (x y : N) :
  Forall P a -> Forall P b -> ~ P x -> ~ P y ->
  a ++ x :: r = b ++ y :: r' -> a = b /\ x = y /\ r = r'.
Proof.
  intros Ha. revert b. induction Ha as [|c a Hc Ha IH]; intros b Hb Hx Hy H.
  - destruct Hb as [|d b Hd Hb]; simpl in H.
    + injection H as -> ->. repeat split.
    + injection H as -> _. contradiction.
  - destruct Hb as [|d b Hd Hb]; simpl in H.
    + injection H as -> _. contradiction.
    + injection H as -> H. destruct (IH b Hb Hx Hy H) as [-> [-> ->]].
      repeat split.
Qed.

Lemma span_unique_r (a b r r' : jsstring) (x y : N) :
  Forall P a -> Forall P b -> ~ P x -> ~ P y ->
  r ++ x :: a = r' ++ y :: b -> r = r' /\ x = y /\ a = b.
Proof.
  intros Ha Hb Hx Hy H.
  apply (f_equal (@rev N)) in H.
  rewrite !rev_app_distr in H. simpl in H. rewrite <- !app_assoc in H.
  simpl in H.
  destruct (span_unique (rev a) (rev b) (rev r) (rev r') x y) as [E1 [E2 E3]];
    try assumption; try (apply Forall_rev; assumption).
  apply (f_equal (@rev N)) in E1, E3. rewrite !rev_involutive in E1, E3.
  repeat split; assumption.
Qed.

End Spans.

Lemma digit_facts (c : N) :
  is_digit c = true -> c <> c_dot /\ c <> c_underscore.
Proof. intros H. split; intros ->; discriminate H. Qed.

(** Two uploads get the same saved name exactly when their sanitized
    names and the clock values agree: sanitized name and time stamp can be
    read back from the saved name. *)
Theorem saved_name_determines_name_and_time
    (name1 name2 : jsstring) (t1 t2 : Z)
    (H1 : (0 <= t1)%Z) (H2 : (0 <= t2)%Z) :
  generateSafeFilename name1 t1 = generateSafeFilename name2 t2
  <-> replace_unsafe name1 = replace_unsafe name2 /\ t1 = t2.
Proof.
  split.
  2:{ intros [Hn ->]. unfold generateSafeFilename. rewrite Hn. reflexivity. }
  intros E.
  pose proof (num_to_string_digits t1 H1) as D1.
  pose proof (num_to_string_digits t2 H2) as D2.
  assert (Hnd : forall t, (0 <= t)%Z -> ~ In c_dot (num_to_string t)).
  { intros t Ht Hin. pose proof (num_to_string_digits t Ht) as D.
    rewrite List.Forall_forall in D. apply D in Hin. discriminate Hin. }
  assert (Hflat : forall (s : jsstring) t, (0 <= t)%Z -> ~ In c_dot s ->
            ~ In c_dot (s ++ lit "_" ++ num_to_string t)).
  { intros s t Ht Hs Hin. apply in_app_or in Hin. destruct Hin as [Hin|Hin];
      [exact (Hs Hin)|].
    destruct Hin as [Hin|Hin]; [discriminate Hin|exact (Hnd t Ht Hin)]. }
  assert (Hcore : forall (a b : jsstring),
            a ++ lit "_" ++ num_to_string t1 = b ++ lit "_" ++ num_to_string t2 ->
            a = b /\ t1 = t2).
  { intros a b Hab.
    assert (Hu : ~ is_digit c_underscore = true) by discriminate.
    destruct (span_unique_r (fun c => is_digit c = true)
                (num_to_string t1) (num_to_string t2) a b
                c_underscore c_underscore D1 D2 Hu Hu Hab) as [Ea [_ Ed]].
    split; [exact Ea|apply num_to_string_inj; exact Ed]. }
  destruct (generateSafeFilename_shape name1 t1) as [[N1 F1]|[s1 [e1 [S1 [X1 F1]]]]];
  destruct (generateSafeFilename_shape name2 t2) as [[N2 F2]|[s2 [e2 [S2 [X2 F2]]]]];
    rewrite F1, F2 in E.
  - apply Hcore. exact E.
  - exfalso. apply (Hflat _ t1 H1 N1). rewrite E.
    do 3 (apply in_or_app; right). apply in_or_app. left.
    simpl. left. reflexivity.
  - exfalso. apply (Hflat _ t2 H2 N2). rewrite <- E.
    do 3 (apply in_or_app; right). apply in_or_app. left.
    simpl. left. reflexivity.
  - change (s1 ++ lit "_" ++ num_to_string t1 ++ lit "." ++ e1)
      with (s1 ++ lit "_" ++ num_to_string t1 ++ c_dot :: e1) in E.
    change (s2 ++ lit "_" ++ num_to_string t2 ++ lit "." ++ e2)
      with (s2 ++ lit "_" ++ num_to_string t2 ++ c_dot :: e2) in E.
    rewrite !(app_assoc _ _ (c_dot :: _)) in E.
    rewrite !(app_assoc s1), !(app_assoc s2) in E.
    assert (Q1 : Forall (fun c => c <> c_dot) e1).
    { apply List.Forall_forall. intros c Hc ->. exact (X1 Hc). }
    assert (Q2 : Forall (fun c => c <> c_dot) e2).
    { apply List.Forall_forall. intros c Hc ->. exact (X2 Hc). }
    assert (Hd : ~ c_dot <> c_dot) by (intros H; apply H; reflexivity).
    destruct (span_unique_r (fun c => c <> c_dot) e1 e2 _ _ c_dot c_dot
                Q1 Q2 Hd Hd E) as [Es [_ Ee]].
    rewrite <- !app_assoc in Es.
    destruct (Hcore s1 s2 Es) as [-> ->].
    split; [|reflexivity]. rewrite S1, S2, Ee. reflexivity.
Qed.

Lemma saved_name_determines_name_and_time_witness :
  generateSafeFilename (lit "a b.txt") 5 = generateSafeFilename (lit "a_b.txt") 5.
Proof.
  apply (proj2 (saved_name_determines_name_and_time (lit "a b.txt")
                  (lit "a_b.txt") 5 5 ltac:(lia) ltac:(lia))).
  split; reflexivity.
Defined.

(** ** The upload request, end to end *)

Lemma saveFile_run (env : Env) (cfg : AppConfig) (file : File) (w : World) :
  let f := generateSafeFilename (name file) (now env) in
  let target := path_join [cwd env; path_join [uploadsDir cfg; f]] in
  saveFile env cfg file w =
  match validateFile cfg file with
  | Invalid e => (Throw e, w)
  | Valid =>
      if mkdir_fails env
      then (Throw FailedToSave, called (CMkdir (uploadsDir cfg)) w)
      else if write_fails env
      then (Throw FailedToSave,
            called (CWrite target) (called (CMkdir (uploadsDir cfg)) w))
      else (Return {| u_name := f; u_type := type file;
                      u_size := size file; u_path := target |},
            saved env cfg file w)
  end.
Proof.
  intros f target. unfold saveFile.
  destruct (validateFile cfg file); [|reflexivity].
  unfold try_catch, bind, FileUploadService.initialize, try_catch, fs_mkdir,
    bun_write, bind, record, get_world, set_fs, saved, called. simpl.
  destruct (mkdir_fails env); [reflexivity|]. simpl.
  destruct (write_fails env); [reflexivity|]. simpl.
  rewrite <- app_assoc. reflexivity.
Qed.

Lemma validateFile_valid (cfg : AppConfig) (file : File) :
  validateFile cfg file = Valid <->
  exceeds (size file) (maxFileSize (uploads cfg)) = false
  /\ type_allowed cfg (type file) = true
  /\ name file <> [].
Proof.
  unfold validateFile.
  destruct (exceeds _ _); [split; [discriminate|intros [H _]; discriminate H]|].
  destruct (type_allowed cfg (type file)); simpl;
    [|split; [discriminate|intros [_ [H _]]; discriminate H]].
  destruct (name file) as [|c n]; simpl.
  - split; [discriminate|]. intros [_ [_ H]]. contradiction.
  - split; [|reflexivity]. intros _. repeat split. discriminate.
Qed.

(** Whatever [saveFile] lets through, [createLoader] has a loader for:
    on the upload path its "Unsupported file type" branch is never
    taken, and the saved file is within the size limit and has a name. *)
Theorem saved_upload_always_has_a_loader
    (env : Env) (penv : ProcessEnv) (file : File) (w w' : World)
    (uf : UploadedFile)
    (Hsave : saveFile env (appConfig penv) file w = (Return uf, w')) :
  RAGService.createLoader (u_path uf) (u_type uf)
  = Return (if str_eqb (type file) (lit "application/pdf")
            then PdfLoader (u_path uf) else MarkdownLoader (u_path uf))
  /\ In (u_type uf) Spec.recognized
  /\ exceeds (u_size uf) (maxFileSize (uploads (appConfig penv))) = false
  /\ name file <> [].
Proof.
  rewrite saveFile_run in Hsave. cbv zeta in Hsave.
  destruct (validateFile (appConfig penv) file) eqn:Hv; [|discriminate].
  apply validateFile_valid in Hv. destruct Hv as [Hs [Ht Hn]].
  destruct (mkdir_fails env); [discriminate|].
  destruct (write_fails env); [discriminate|].
  injection Hsave as <- <-. simpl.
  apply (type_allowed_recognized penv) in Ht.
  rewrite (createLoader_recognized _ _ Ht).
  repeat split; try assumption.
  destruct (str_eqb (type file) (lit "application/pdf")); reflexivity.
Qed.

Lemma saved_upload_always_has_a_loader_witness :
  RAGService.createLoader Sample.notes_path (lit "text/markdown")
  = Return (MarkdownLoader Sample.notes_path).
Proof.
  exact (proj1 (saved_upload_always_has_a_loader Sample.env default_env
                  Sample.notes Sample.booted Sample.uploaded
                  {| u_name := Sample.notes_name; u_type := lit "text/markdown";
                     u_size := 12; u_path := Sample.notes_path |} eq_refl)).
Defined.

Lemma after_unlink_app (env : Env) (p : jsstring) (w : World) :
  ragApplication (after_unlink env p w) = ragApplication w.
Proof.
  unfold after_unlink.
  destruct (fs w !! p); [destruct (unlink_denied env p)|]; reflexivity.
Qed.

Lemma after_addLoader_calls (env : Env) (app : RagApp) (l : Loader) (w : World) :
  calls (after_addLoader env app l w) = calls w ++ [CAddLoader l].
Proof. reflexivity. Qed.

Lemma addFileSource_calls (env : Env) (filePath fileType fileName : jsstring)
    (w : World) :
  calls (snd (RAGService.addFileSource env filePath fileType fileName w))
  = calls w
    ++ match ragApplication w with
       | None => []
       | Some _ =>
           match RAGService.createLoader filePath fileType with
           | Return l => [CAddLoader l; CUnlink filePath]
           | Throw _ => [CUnlink filePath]
           end
       end.
Proof.
  destruct (ragApplication w) as [app|] eqn:Happ.
  - rewrite (addFileSource_run env _ _ _ w app Happ).
    destruct (RAGService.createLoader filePath fileType); simpl;
      rewrite after_unlink_calls; [|reflexivity].
    rewrite after_addLoader_calls, <- app_assoc. reflexivity.
  - unfold RAGService.addFileSource, bind, get_world. rewrite Happ. simpl.
    rewrite app_nil_r. reflexivity.
Qed.

(** What an upload request does to the outside, in every case: nothing
    for a missing or invalid file; otherwise it makes the uploads
    directory, writes the file under its safe name, hands one loader for
    that file to the library and unlinks that same file.  It never
    unlinks, writes or loads anything else. *)
Theorem upload_request_touches_only_its_own_file
    (env : Env) (cfg : AppConfig) (file : File) (w : World) :
  let target :=
    path_join [cwd env;
               path_join [uploadsDir cfg;
                          generateSafeFilename (name file) (now env)]] in
  let made := calls (snd (Main.add_file env cfg (Some file) w)) in
  calls (snd (Main.add_file env cfg None w)) = calls w
  /\ (made = calls w
      \/ made = calls w ++ [CMkdir (uploadsDir cfg)]
      \/ made = calls w ++ [CMkdir (uploadsDir cfg); CWrite target]
      \/ made = calls w ++ [CMkdir (uploadsDir cfg); CWrite target;
                            CUnlink target]
      \/ made = calls w ++ [CMkdir (uploadsDir cfg); CWrite target;
                            CAddLoader (PdfLoader target); CUnlink target]
      \/ made = calls w ++ [CMkdir (uploadsDir cfg); CWrite target;
                            CAddLoader (MarkdownLoader target);
                            CUnlink target]).
Proof.
  intros target made. split; [reflexivity|].
  subst made. unfold Main.add_file, try_catch, Main.add_file_try, bind.
  rewrite saveFile_run. cbv zeta. fold target.
  destruct (validateFile cfg file); [|left; reflexivity].
  destruct (mkdir_fails env); [right; left; reflexivity|].
  destruct (write_fails env).
  { right; right; left. simpl. rewrite <- app_assoc. reflexivity. }
  set (ws := saved env cfg file w).
  assert (Hc : calls (snd (let (o, w') :=
                  RAGService.addFileSource env target (type file)
                    (generateSafeFilename (name file) (now env)) ws in
                match o with
                | Return a => (Return a, w')
                | Throw e => ret (Main.handleError e) w'
                end))
               = calls (snd (RAGService.addFileSource env target (type file)
                    (generateSafeFilename (name file) (now env)) ws))).
  { destruct (RAGService.addFileSource _ _ _ _ ws) as [[a|e] w']; reflexivity. }
  simpl u_path. simpl u_type. simpl u_name. rewrite Hc, addFileSource_calls.
  subst ws. unfold saved at 1. simpl calls. fold target.
  rewrite <- !app_assoc. simpl.
  destruct (ragApplication w); [|right; right; left; reflexivity].
  unfold RAGService.createLoader.
  destruct (str_eqb (type file) (lit "application/pdf")).
  { do 4 right. left. reflexivity. }
  destruct (str_eqb (type file) (lit "text/markdown")
            || str_eqb (type file) (lit "text/plain")).
  { do 5 right. reflexivity. }
  right; right; right; left. reflexivity.
Qed.

(** A valid upload on an initialised service, with a platform that makes
    the directory, writes and unlinks as asked: whether the library
    resolves or not, the uploaded file is gone afterwards, every other
    file but the store is as before, and the reply names the saved file,
    as a success or as "Failed to load file". *)
Theorem valid_upload_leaves_no_file_behind
    (env : Env) (penv : ProcessEnv) (file : File) (w : World) (app : RagApp)
    (Happ : ragApplication w = Some app)
    (Hvalid : validateFile (appConfig penv) file = Valid)
    (Hmkdir : mkdir_fails env = false)
    (Hwrite : write_fails env = false)
    (Hunlink : unlink_denied env
                 (path_join [cwd env;
                    path_join [uploadsDir (appConfig penv);
                               generateSafeFilename (name file) (now env)]])
               = false) :
  let cfg := appConfig penv in
  let f := generateSafeFilename (name file) (now env) in
  let target := path_join [cwd env; path_join [uploadsDir cfg; f]] in
  let r := Main.add_file env cfg (Some file) w in
  fs (snd r) !! target = None
  /\ (forall p, p <> target -> p <> app_db app ->
                fs (snd r) !! p = fs w !! p)
  /\ (fst r = Return (RAGService.file_reply f)
      \/ fst r = Return (Main.handleError (FailedToLoadFile f)))
  /\ ragApplication (snd r) = Some app.
Proof.
  intros cfg f target r.
  set (l := if str_eqb (type file) (lit "application/pdf")
            then PdfLoader target else MarkdownLoader target).
  set (w2 := after_unlink env target
               (after_addLoader env app l (saved env cfg file w))).
  assert (Hrun : r = (Return (if addLoader_resolves env app l (saved env cfg file w)
                              then RAGService.file_reply f
                              else Main.handleError (FailedToLoadFile f)),
                      w2)).
  { subst r. unfold Main.add_file, try_catch, Main.add_file_try, bind.
    rewrite saveFile_run. cbv zeta. fold cfg f target.
    replace (validateFile cfg file) with Valid by (symmetry; exact Hvalid).
    rewrite Hmkdir, Hwrite.
    cbn [u_path u_type u_name].
    assert (Happ' : ragApplication (saved env cfg file w) = Some app)
      by exact Happ.
    rewrite (addFileSource_run env _ _ _ _ app Happ').
    assert (Ht : In (type file) Spec.recognized).
    { apply validateFile_valid in Hvalid. destruct Hvalid as [_ [Ht _]].
      apply (type_allowed_recognized penv). exact Ht. }
    rewrite (createLoader_recognized target _ Ht).
    subst w2 l.
    destruct (str_eqb (type file) (lit "application/pdf"));
      destruct (addLoader_resolves env app _ (saved env cfg file w));
      reflexivity. }
  rewrite Hrun. cbn [fst snd].
  split; [|split; [|split]].
  - subst w2. apply after_unlink_gone. exact Hunlink.
  - intros p Hp Hdb. subst w2. unfold after_unlink.
    change (unlink_denied env target) with
      (unlink_denied env
         (path_join [cwd env;
            path_join [uploadsDir (appConfig penv);
                       generateSafeFilename (name file) (now env)]])).
    rewrite Hunlink.
    assert (Hin : fs (after_addLoader env app l (saved env cfg file w)) !! p
                  = fs w !! p).
    { unfold after_addLoader, saved. simpl. fold cfg f target.
      rewrite lookup_insert_ne by congruence.
      rewrite lookup_insert_ne by congruence. reflexivity. }
    destruct (fs _ !! target); simpl;
      rewrite ?lookup_delete_ne by congruence; exact Hin.
  - destruct (addLoader_resolves env app l (saved env cfg file w));
      [left|right]; reflexivity.
  - subst w2. rewrite after_unlink_app. exact Happ.
Qed.

Lemma valid_upload_leaves_no_file_behind_witness :
  fs (snd (Main.add_file Sample.env Sample.cfg (Some Sample.notes)
             Sample.booted)) !! Sample.notes_path = None.
Proof.
  exact (proj1 (valid_upload_leaves_no_file_behind Sample.env default_env
                  Sample.notes Sample.booted Sample.store
                  eq_refl eq_refl eq_refl eq_refl eq_refl)).
Defined.

(** ** The web source request *)

(** POST /add-source checks the address before it ingests: an empty
    address and one the URL parser refuses are answered with their own
    errors and leave the world untouched, the library is not called.
    For an address that parses the reply is the host fragment when the
    library resolves and "Failed to load web source" when it rejects;
    the handler never throws. *)
Theorem web_request_checks_the_address_first
    (env : Env) (cfg : AppConfig) (url : jsstring) (w : World) :
  Main.add_source env cfg url w =
  match url with
  | [] => (Return (Main.handleError ValidUrlRequired), w)
  | _ =>
      match url_hostname env url with
      | None => (Return (Main.handleError InvalidUrlFormat), w)
      | Some hostname =>
          match ragApplication w with
          | None => (Return (Main.handleError RagNotInitialized), w)
          | Some app =>
              let l := WebLoader url (Config.chunkSize (Config.chat cfg))
                                     (Config.chunkOverlap (Config.chat cfg)) in
              (Return (if addLoader_resolves env app l w
                       then RAGService.web_reply hostname
                       else Main.handleError (FailedToLoadWeb url)),
               after_addLoader env app l w)
          end
      end
  end.
Proof.
  unfold Main.add_source, try_catch.
  destruct url as [|c url]; [reflexivity|].
  set (u := c :: url).
  unfold bind at 1. unfold try_catch, bind, url_hostname_of.
  destruct (url_hostname env u) as [h|] eqn:Hh; [|reflexivity].
  unfold ret at 1 2. cbv iota beta.
  destruct (ragApplication w) as [app|] eqn:Happ.
  - rewrite (addWebSource_run env cfg u w app Happ). cbv zeta. rewrite Hh.
    destruct (addLoader_resolves env app _ w); reflexivity.
  - unfold RAGService.addWebSource, bind, get_world. rewrite Happ. reflexivity.
Qed.

(** ** Clearing, restarting *)


(** When the platform carries out the unlink (or there is no store file)
    and the library builds, a cleared store is empty for every reader: no
    rows, no sources, the sources page shows its placeholder and
    [databaseExists] says no; the service is initialised, and the next
    ingestion starts from an empty store. *)
Theorem cleared_store_is_empty_and_ready
    (env env' : Env) (cfg : AppConfig) (w : World) (url : jsstring)
    (Hunlink : unlink_denied env (path (database cfg)) = false)
    (Hbuild : build_fails env = false) :
  let r := RAGService.clearSources env cfg w in
  let l := WebLoader url (Config.chunkSize (Config.chat cfg))
                         (Config.chunkOverlap (Config.chat cfg)) in
  fst r = Return tt
  /\ DatabaseService.count cfg (snd r) = 0%nat
  /\ DatabaseService.databaseExists cfg (snd r) = false
  /\ SourcesPage.getSourcesHTML env' cfg (snd r) = SourcesPage.no_sources
  /\ RAGService.isInitialized (snd r) = true
  /\ db_rows (snd (RAGService.addWebSource env' cfg url (snd r)))
             (path (database cfg))
     = fst (lib_addLoader env' l []).
Proof.
  intros r l. subst r.
  rewrite clearSources_run, initialize_run. cbv zeta. rewrite Hbuild.
  rewrite (after_unlink_gone env (path (database cfg)) w Hunlink).
  cbn [fst snd].
  set (w' := {| ragApplication := Some {| app_db := path (database cfg) |};
                fs := _; calls := _ |}).
  assert (Hrows : db_rows w' (path (database cfg)) = []).
  { unfold db_rows, w'. simpl. rewrite lookup_insert_eq. reflexivity. }
  repeat split.
  - unfold DatabaseService.count. rewrite Hrows. reflexivity.
  - unfold DatabaseService.databaseExists, DatabaseService.count.
    rewrite Hrows. reflexivity.
  - unfold SourcesPage.getSourcesHTML, DatabaseService.getSources,
      DatabaseService.select_sources. rewrite Hrows. reflexivity.
  - rewrite (addWebSource_run env' cfg url w' {| app_db := path (database cfg) |}
               eq_refl).
    cbv zeta. cbn [snd].
    rewrite (db_rows_after_addLoader env' {| app_db := path (database cfg) |}).
    cbn [app_db]. rewrite Hrows. reflexivity.
Qed.

Lemma cleared_store_is_empty_and_ready_witness :
  DatabaseService.count Sample.cfg
    (snd (RAGService.clearSources Sample.env Sample.cfg Sample.ingested))
  = 0%nat.
Proof.
  exact (proj1 (proj2 (cleared_store_is_empty_and_ready Sample.env Sample.env
                         Sample.cfg Sample.ingested Sample.docs_url
                         eq_refl eq_refl))).
Defined.




(** ** A listening server *)

Lemma try_catch_returns {A} (c : Eff A) (h : Err -> A) (w : World) :
  exists a, fst (try_catch c (fun e => ret (h e)) w) = Return a.
Proof.
  unfold try_catch. destruct (c w) as [[a|e] w']; eexists; reflexivity.
Qed.

Lemma handle_returns (env : Env) (cfg : AppConfig) (op : Op) (w : World) :
  exists html, fst (handle env cfg op w) = Return html.
Proof.
  destruct op as [url|file| |query]; apply try_catch_returns.
Qed.

(** In every state a listening server can reach, the service is
    initialised; each request is answered with a page, no exception
    leaves a handler, and the service is still initialised afterwards,
    whatever the platform and the library did in between. *)
Theorem listening_server_stays_initialised
    (cfg : AppConfig) (w : World) (Hreach : reachable cfg w)
    (env : Env) (op : Op) :
  (exists app, ragApplication w = Some app)
  /\ (exists html, fst (handle env cfg op w) = Return html)
  /\ (exists app, ragApplication (snd (handle env cfg op w)) = Some app).
Proof.
  split; [apply (reachable_initialized cfg); exact Hreach|].
  split; [apply handle_returns|].
  apply (reachable_initialized cfg). apply reach_step. exact Hreach.
Qed.

Lemma listening_server_stays_initialised_witness :
  exists app,
    ragApplication
      (snd (handle (with_unlink_denied (fun _ => true) Sample.env) Sample.cfg
              OpClearSources Sample.booted)) = Some app.
Proof.
  exact (proj2 (proj2 (listening_server_stays_initialised Sample.cfg
    Sample.booted (reach_boot Sample.cfg Sample.env Sample.blank eq_refl)
    (with_unlink_denied (fun _ => true) Sample.env) OpClearSources))).
Defined.

(** ** Answers and their page *)

Lemma JSON_stringify_defined (v : JsValue) :
  JSON_stringify v = None <-> v = JUndefined.
Proof.
  destruct v as [| |[|]|[|z]|s|fields|items]; simpl; split;
    try discriminate; reflexivity.
Qed.

(** [formatResponse] gives a string for every response but [undefined];
    so a query on an initialised service returns [undefined] (on which
    the /chat handler then fails with a [TypeError]) only when the
    library resolved with [undefined]. *)
Theorem answer_is_a_string_unless_the_response_is_undefined
    (env : Env) (question : jsstring) (w : World) (app : RagApp)
    (Happ : ragApplication w = Some app) (v : JsValue) :
  (RAGService.formatResponse v = None <-> v = JUndefined)
  /\ (fst (RAGService.query env question w) = Return None
      <-> lib_query env question (db_rows w (app_db app)) = Some JUndefined).
Proof.
  assert (F : forall v, RAGService.formatResponse v = None <-> v = JUndefined).
  { intros u. unfold RAGService.formatResponse.
    destruct (truthy u && typeof_object u && has_key (lit "content") u
              && truthy (get (lit "content") u)) eqn:E1.
    { split; [discriminate|]. intros ->. discriminate E1. }
    destruct (truthy u && typeof_object u && has_key (lit "text") u
              && truthy (get (lit "text") u)) eqn:E2.
    { split; [discriminate|]. intros ->. discriminate E2. }
    destruct u; try apply JSON_stringify_defined.
    split; discriminate. }
  split; [apply F|].
  rewrite (query_run env question w app Happ).
  destruct (lib_query env question _) as [u|]; simpl.
  - split.
    + intros H. injection H as H. apply F in H. congruence.
    + intros H. injection H as ->. reflexivity.
  - split; discriminate.
Qed.

Lemma answer_is_a_string_unless_the_response_is_undefined_witness :
  fst (RAGService.query (with_query (fun _ _ => Some JUndefined) Sample.env)
         (lit "why") Sample.booted) = Return None.
Proof.
  apply (proj2 (answer_is_a_string_unless_the_response_is_undefined
                  (with_query (fun _ _ => Some JUndefined) Sample.env)
                  (lit "why") Sample.booted Sample.store eq_refl JNull)).
  reflexivity.
Defined.

Lemma escape_quotes_app (a b : jsstring) :
  escape_quotes (a ++ b) = escape_quotes a ++ escape_quotes b.
Proof. unfold escape_quotes. apply flat_map_app. Qed.

(** The answer is put into the [data-markdown] attribute with every
    double quote turned into [&quot;]: the attribute value holds no
    double quote, so the attribute ends where the handler closes it; an
    answer without a double quote goes in unchanged; and taking the six
    units of each [&quot;] for one, the value is as long as the answer. *)
Theorem answer_attribute_holds_no_quote (answer : jsstring) :
  ~ In c_quote (escape_quotes answer)
  /\ (~ In c_quote answer -> escape_quotes answer = answer)
  /\ length (escape_quotes answer)
     = (length answer
        + 5 * length (List.filter (N.eqb c_quote) answer))%nat.
Proof.
  induction answer as [|c a [IH1 [IH2 IH3]]]; [repeat split; auto|].
  change (escape_quotes (c :: a))
    with ((if N.eqb c c_quote then lit "&quot;" else [c]) ++ escape_quotes a).
  destruct (N.eqb_spec c c_quote) as [->|Hne].
  - split; [|split].
    + intros H. apply in_app_or in H. destruct H as [H|H]; [|exact (IH1 H)].
      simpl in H. repeat destruct H as [H|H]; try discriminate H; exact H.
    + intros H. exfalso. apply H. left. reflexivity.
    + rewrite length_app, IH3.
      change (List.filter (N.eqb c_quote) (c_quote :: a))
        with (c_quote :: List.filter (N.eqb c_quote) a).
      simpl length. lia.
  - split; [|split].
    + intros [H|H]; [congruence|exact (IH1 H)].
    + intros H. simpl. f_equal. apply IH2. intros Hin. apply H. right. exact Hin.
    + assert (E : N.eqb c_quote c = false) by (apply N.eqb_neq; congruence).
      cbn [List.filter]. rewrite E. simpl length. rewrite IH3. reflexivity.
Qed.

Lemma answer_attribute_holds_no_quote_witness :
  escape_quotes (lit "no quote here") = lit "no quote here".
Proof.
  apply (proj1 (proj2 (answer_attribute_holds_no_quote (lit "no quote here")))).
  intros H. simpl in H. repeat destruct H as [H|H]; try discriminate H; exact H.
Defined.

(** ** The question that reaches the library *)

Lemma trimStart_split (s : jsstring) :
  exists a, s = a ++ trimStart s /\ forallb is_whitespace a = true.
Proof.
  induction s as [|c s [a [E Ha]]]; [exists []; split; reflexivity|].
  simpl. destruct (is_whitespace c) eqn:Hc.
  - exists (c :: a). simpl. rewrite Hc, Ha. split; [f_equal; exact E|reflexivity].
  - exists []. split; reflexivity.
Qed.

Lemma trimStart_head (s : jsstring) (c : N) (rest : jsstring) :
  trimStart s = c :: rest -> is_whitespace c = false.
Proof.
  induction s as [|d s IH]; simpl; [discriminate|].
  destruct (is_whitespace d) eqn:Hd; [exact IH|].
  intros H. injection H as <- _. exact Hd.
Qed.

Lemma trimStart_inked (c : N) (rest : jsstring) :
  is_whitespace c = false -> trimStart (c :: rest) = c :: rest.
Proof. intros H. simpl. rewrite H. reflexivity. Qed.

Lemma trim_split (s : jsstring) :
  exists a b, s = a ++ trim s ++ b
              /\ forallb is_whitespace a = true
              /\ forallb is_whitespace b = true.
Proof.
  unfold trim, trimEnd.
  destruct (trimStart_split s) as [a [Ea Ha]].
  destruct (trimStart_split (rev (trimStart s))) as [b [Eb Hb]].
  exists a, (rev b). split; [|split].
  - rewrite Ea at 1. f_equal.
    rewrite <- rev_app_distr, <- Eb, rev_involutive. reflexivity.
  - exact Ha.
  - rewrite forallb_rev_ws. exact Hb.
Qed.

Lemma trim_ends (s : jsstring) :
  (forall c rest, trim s = c :: rest -> is_whitespace c = false)
  /\ (forall c front, trim s = front ++ [c] -> is_whitespace c = false).
Proof.
  unfold trim, trimEnd. split.
  - intros c rest H.
    destruct (trimStart (rev (trimStart s))) as [|d t] eqn:E; [discriminate|].
    pose proof (trimStart_head _ _ _ E) as Hd.
    (* the trimmed string is a prefix of [trimStart s] *)
    destruct (trimStart_split (rev (trimStart s))) as [b [Eb Hb]].
    rewrite E in Eb.
    apply (f_equal (@rev N)) in Eb. rewrite rev_involutive, rev_app_distr in Eb.
    rewrite H in Eb.
    destruct (trimStart s) as [|x xs] eqn:Es.
    + simpl in Eb. discriminate.
    + simpl in Eb. injection Eb as -> _. exact (trimStart_head _ _ _ Es).
  - intros c front H.
    apply (f_equal (@rev N)) in H.
    rewrite rev_involutive, rev_app_distr in H. simpl in H.
    exact (trimStart_head _ _ _ H).
Qed.

(** A question that is not blank, put to an initialised service, makes
    exactly one call to the library, and the question of that call is
    the text without the white space around it: it is not empty, it
    neither starts nor ends with white space, and the text is that
    question between two runs of white space. *)
Theorem library_is_asked_the_trimmed_question
    (env : Env) (query : jsstring) (w : World) (app : RagApp)
    (Hink : forallb is_whitespace query = false)
    (Happ : ragApplication w = Some app) :
  let q := trim query in
  calls (snd (Main.chat env query w)) = calls w ++ [CQuery q]
  /\ q <> []
  /\ (forall c rest, q = c :: rest -> is_whitespace c = false)
  /\ (forall c front, q = front ++ [c] -> is_whitespace c = false)
  /\ (exists a b, query = a ++ q ++ b
                  /\ forallb is_whitespace a = true
                  /\ forallb is_whitespace b = true)
  /\ trim q = q.
Proof.
  intros q. subst q.
  destruct (trim_ends query) as [Hhead Hlast].
  assert (Hne : trim query <> []).
  { intros E. apply trim_blank in E. congruence. }
  split; [|split; [exact Hne|split; [exact Hhead|split; [exact Hlast|split]]]].
  - unfold Main.chat, try_catch. rewrite blank_check, Hink.
    unfold bind at 1, get_world. unfold RAGService.isInitialized.
    rewrite Happ. unfold bind. cbn [negb]. cbv beta iota.
    rewrite (query_run env (trim query) w app Happ).
    destruct (lib_query env (trim query) _) as [v|]; simpl; [|reflexivity].
    destruct (RAGService.formatResponse v); reflexivity.
  - apply trim_split.
  - remember (trim query) as q eqn:Eq. clear Eq.
    unfold trim, trimEnd.
    destruct q as [|c rest]; [contradiction|].
    rewrite (trimStart_inked c rest (Hhead c rest eq_refl)).
    destruct (rev (c :: rest)) as [|d t] eqn:Er.
    + apply (f_equal (@rev N)) in Er. rewrite rev_involutive in Er.
      discriminate Er.
    + assert (Hd : is_whitespace d = false).
      { apply (Hlast d (rev t)).
        rewrite <- (rev_involutive (c :: rest)), Er. reflexivity. }
      rewrite (trimStart_inked d t Hd), <- Er. apply rev_involutive.
Qed.

Lemma library_is_asked_the_trimmed_question_witness :
  calls (snd (Main.chat Sample.env (lit "  why? ") Sample.booted))
  = calls Sample.booted ++ [CQuery (lit "why?")].
Proof.
  exact (proj1 (library_is_asked_the_trimmed_question Sample.env
                  (lit "  why? ") Sample.booted Sample.store
                  eq_refl eq_refl)).
Defined.

(** ** Old uploads *)

Import Cleanup.

Lemma sweep_run (env : Env) (cfg : AppConfig) (view : DirView)
    (maxAgeMs : jsnum) (files : list jsstring) (w : World) :
  calls (snd (sweep env cfg view maxAgeMs files w))
  = calls w ++ map CUnlink (stale env cfg view maxAgeMs files)
  /\ ragApplication (snd (sweep env cfg view maxAgeMs files w))
     = ragApplication w.
Proof.
  revert w. induction files as [|file rest IH]; intros w; simpl.
  - rewrite app_nil_r. split; reflexivity.
  - destruct (mtime view _) as [m|]; simpl.
    2:{ rewrite app_nil_r. split; reflexivity. }
    unfold bind.
    destruct (exceeds (now env - m) maxAgeMs).
    + unfold deleteFile. rewrite swallow_unlink.
      destruct (IH (after_unlink env
                      (path_join [uploadsDir cfg; file]) w)) as [Hc Ha].
      rewrite Hc, Ha, after_unlink_calls, after_unlink_app, <- app_assoc.
      split; reflexivity.
    + unfold ret at 1. apply IH.
Qed.

Lemma stale_sound (env : Env) (cfg : AppConfig) (view : DirView)
    (maxAgeMs : jsnum) (files : list jsstring) (p : jsstring) :
  In p (stale env cfg view maxAgeMs files) ->
  exists file m a,
    In file files /\ p = path_join [uploadsDir cfg; file]
    /\ mtime view p = Some m /\ maxAgeMs = Num a /\ (a < now env - m)%Z.
Proof.
  induction files as [|file rest IH]; simpl; [contradiction|].
  destruct (mtime view (path_join [uploadsDir cfg; file])) as [m|] eqn:Em;
    [|contradiction].
  destruct (exceeds (now env - m) maxAgeMs) eqn:Ex.
  - intros [<-|Hin].
    + unfold exceeds in Ex. destruct maxAgeMs as [|a]; [discriminate|].
      exists file, m, a. repeat split; auto. apply Z.ltb_lt. exact Ex.
    + destruct (IH Hin) as [f' [m' [a [H1 H2]]]].
      exists f', m', a. split; [right; exact H1|exact H2].
  - intros Hin. destruct (IH Hin) as [f' [m' [a [H1 H2]]]].
    exists f', m', a. split; [right; exact H1|exact H2].
Qed.

Lemma stale_complete (env : Env) (cfg : AppConfig) (view : DirView)
    (a : Z) (files : list jsstring) :
  (forall file, In file files ->
                mtime view (path_join [uploadsDir cfg; file]) <> None) ->
  forall file m,
    In file files ->
    mtime view (path_join [uploadsDir cfg; file]) = Some m ->
    (a < now env - m)%Z ->
    In (path_join [uploadsDir cfg; file]) (stale env cfg view (Num a) files).
Proof.
  induction files as [|f rest IH]; intros Hall file m Hin Hm Hold;
    [contradiction|].
  simpl.
  destruct (mtime view (path_join [uploadsDir cfg; f])) as [mf|] eqn:Ef.
  2:{ exfalso. apply (Hall f); [left; reflexivity|exact Ef]. }
  assert (Hrest : forall file0, In file0 rest ->
            mtime view (path_join [uploadsDir cfg; file0]) <> None).
  { intros f0 H0. apply Hall. right. exact H0. }
  destruct Hin as [->|Hin].
  - rewrite Hm in Ef. injection Ef as <-.
    assert (E : (a <? now env - m)%Z = true) by (apply Z.ltb_lt; exact Hold).
    rewrite E. left. reflexivity.
  - destruct (a <? now env - mf)%Z; [right|]; apply (IH Hrest file m); assumption.
Qed.

(** A sweep of the uploads directory never throws, whatever [readdir],
    [stat] and [unlink] do, and leaves the service as it is.  It unlinks
    only entries of that directory whose age is strictly above the
    limit, in the order of the listing, and stops without a word at the
    first entry it cannot [stat]; with a limit that is [NaN], or a
    directory it cannot read, it unlinks nothing.  When every entry can
    be examined, each entry above the limit is unlinked. *)
Theorem cleanup_unlinks_only_old_uploads
    (env : Env) (cfg : AppConfig) (view : DirView) (maxAgeMs : jsnum)
    (w : World) :
  let r := cleanupOldFiles env cfg view maxAgeMs w in
  let removed :=
    match readdir view (uploadsDir cfg) with
    | Some files => stale env cfg view maxAgeMs files
    | None => []
    end in
  fst r = Return tt
  /\ calls (snd r) = calls w ++ map CUnlink removed
  /\ ragApplication (snd r) = ragApplication w
  /\ (forall p, In p removed ->
        exists file files m a,
          readdir view (uploadsDir cfg) = Some files /\ In file files
          /\ p = path_join [uploadsDir cfg; file]
          /\ mtime view p = Some m /\ maxAgeMs = Num a
          /\ (a < now env - m)%Z)
  /\ (maxAgeMs = NaN -> removed = [])
  /\ (forall files a,
        readdir view (uploadsDir cfg) = Some files -> maxAgeMs = Num a ->
        (forall file, In file files ->
                      mtime view (path_join [uploadsDir cfg; file]) <> None) ->
        forall file m,
          In file files ->
          mtime view (path_join [uploadsDir cfg; file]) = Some m ->
          (a < now env - m)%Z ->
          In (path_join [uploadsDir cfg; file]) removed).
Proof.
  intros r removed.
  assert (Hcomplete : forall files a,
        readdir view (uploadsDir cfg) = Some files -> maxAgeMs = Num a ->
        (forall file, In file files ->
                      mtime view (path_join [uploadsDir cfg; file]) <> None) ->
        forall file m,
          In file files ->
          mtime view (path_join [uploadsDir cfg; file]) = Some m ->
          (a < now env - m)%Z ->
          In (path_join [uploadsDir cfg; file]) removed).
  { intros files a Hr -> Hall file m Hin Hm Hold. subst removed. rewrite Hr.
    apply (stale_complete env cfg view a files Hall file m); assumption. }
  cut (fst r = Return tt
       /\ calls (snd r) = calls w ++ map CUnlink removed
       /\ ragApplication (snd r) = ragApplication w
       /\ (forall p, In p removed ->
             exists file files m a,
               readdir view (uploadsDir cfg) = Some files /\ In file files
               /\ p = path_join [uploadsDir cfg; file]
               /\ mtime view p = Some m /\ maxAgeMs = Num a
               /\ (a < now env - m)%Z)
       /\ (maxAgeMs = NaN -> removed = [])).
  { intros [H1 [H2 [H3 [H4 H5]]]]. repeat split; assumption. }
  clear Hcomplete.
  subst r removed. unfold cleanupOldFiles, try_catch.
  destruct (readdir view (uploadsDir cfg)) as [files|] eqn:Er.
  - destruct (sweep_run env cfg view maxAgeMs files w) as [Hc Ha].
    destruct (sweep env cfg view maxAgeMs files w) as [[[]|e] w'];
      simpl in *; (split; [reflexivity|]); (split; [exact Hc|]);
      (split; [exact Ha|]); (split; [|]);
      try (intros p Hp; destruct (stale_sound _ _ _ _ _ _ Hp)
             as [file [m [a [H1 H2]]]];
           exists file, files, m, a; split; [reflexivity|split; assumption]);
      intros ->; clear; induction files as [|f fs IH]; simpl; auto;
      destruct (mtime view _); auto.
  - simpl. rewrite app_nil_r. repeat split; try contradiction.
Qed.

(** ** The list of sources *)

Import DatabaseService.


Lemma formatSource_source (env : Env) (src : jsstring) :
  item_source (formatSource env src) = src.
Proof.
  unfold formatSource.
  destruct (url_hostname env src); [reflexivity|].
  destruct (endsWith (lit ".pdf") src); [reflexivity|].
  destruct (endsWith (lit ".md") src); [reflexivity|].
  destruct (endsWith (lit ".txt") src); [reflexivity|].
  destruct (includes_slash src); reflexivity.
Qed.



Lemma endsWith_split (suffix s : jsstring) :
  endsWith suffix s = true -> exists pre, s = pre ++ suffix.
Proof.
  unfold endsWith. intros H. apply andb_true_iff in H. destruct H as [H _].
  apply str_eqb_eq in H.
  exists (take (length s - length suffix) s).
  rewrite <- H at 2. symmetry. apply take_drop.
Qed.

Lemma last_unit (pre pre' : jsstring) (c d : N) :
  pre ++ [c] = pre' ++ [d] -> c = d.
Proof. intros H. apply app_inj_tail in H. destruct H as [_ H]. exact H. Qed.

(** A string is what is before its last part, and that ends at a
    separator. *)
Lemma last_part_split sep (s : jsstring) :
  exists front, s = front ++ List.last (split sep s) []
                /\ (front = [] \/ exists d, front = d ++ [sep]).
Proof.
  pose proof (split_nonempty sep s) as Hn.
  pose proof (join_split sep s) as Hj.
  rewrite (removelast_last_parts _ Hn) in Hj.
  destruct (removelast (split sep s)) as [|p ps] eqn:E.
  - exists []. split; [symmetry; exact Hj|left; reflexivity].
  - rewrite join_snoc in Hj by discriminate.
    exists (join [sep] (p :: ps) ++ [sep]). split.
    + rewrite <- app_assoc. symmetry. exact Hj.
    + right. eexists. reflexivity.
Qed.

Lemma last_part_no_sep sep (s : jsstring) :
  ~ In sep (List.last (split sep s) []).
Proof.
  pose proof (split_parts_no_sep sep s) as H.
  pose proof (split_nonempty sep s) as Hn.
  induction (split sep s) as [|p ps IH]; [contradiction|].
  inversion H; subst. destruct ps; [assumption|].
  apply IH; [assumption|discriminate].
Qed.

(** A source that is no URL and ends in .pdf, .md or .txt is shown by
    its base name: the part after the last slash, which is not empty and
    holds no slash; and it is typed by that extension. *)
Theorem file_source_is_shown_by_its_base_name
    (env : Env) (src suffix : jsstring)
    (Hfile : url_hostname env src = None)
    (Hext : In suffix [lit ".pdf"; lit ".md"; lit ".txt"])
    (Hends : endsWith suffix src = true) :
  let item := formatSource env src in
  item_source item = src
  /\ displayName item <> []
  /\ ~ In c_slash (displayName item)
  /\ (exists dir, src = dir ++ displayName item
                  /\ (dir = [] \/ exists d, dir = d ++ [c_slash]))
  /\ item_type item
     = (if str_eqb suffix (lit ".pdf") then pdf
        else if str_eqb suffix (lit ".md") then markdown else text).
Proof.
  intros item.
  destruct (endsWith_split _ _ Hends) as [pre Epre].
  (* the last unit of [src] is a letter, so the last part is not empty *)
  assert (Hlast : exists front c, src = front ++ [c] /\ c <> c_slash).
  { destruct Hext as [<-|[<-|[<-|[]]]].
    - exists (pre ++ lit ".pd"), 102. rewrite Epre, <- app_assoc.
      split; [reflexivity|discriminate].
    - exists (pre ++ lit ".m"), 100. rewrite Epre, <- app_assoc.
      split; [reflexivity|discriminate].
    - exists (pre ++ lit ".tx"), 116. rewrite Epre, <- app_assoc.
      split; [reflexivity|discriminate]. }
  destruct Hlast as [front [c [Ec Hc]]].
  destruct (last_part_split c_slash src) as [dir [Edir Hdir]].
  assert (Hbase : List.last (split c_slash src) [] <> []).
  { intros E. rewrite E, app_nil_r in Edir.
    destruct Hdir as [->|[d ->]].
    - rewrite Edir in Ec. destruct front; discriminate.
    - rewrite Edir in Ec. apply last_unit in Ec. congruence. }
  assert (Hname : basename_or src = List.last (split c_slash src) []).
  { unfold basename_or.
    destruct (List.last (split c_slash src) []); [contradiction|reflexivity]. }
  assert (Hother : forall a b : N, a <> b ->
            forall x y, src = x ++ [a] -> src = y ++ [b] -> False).
  { intros a b Hab x y Hx Hy. rewrite Hx in Hy. apply last_unit in Hy.
    contradiction. }
  assert (Hitem : displayName item = basename_or src
                  /\ item_type item
                     = (if str_eqb suffix (lit ".pdf") then pdf
                        else if str_eqb suffix (lit ".md") then markdown
                        else text)).
  { subst item. unfold formatSource. rewrite Hfile.
    destruct Hext as [<-|[<-|[<-|[]]]].
    - rewrite Hends. split; reflexivity.
    - destruct (endsWith (lit ".pdf") src) eqn:E1.
      { exfalso. destruct (endsWith_split _ _ E1) as [q Eq].
        apply (Hother 100 102 ltac:(discriminate)
                 (pre ++ lit ".m") (q ++ lit ".pd"));
          rewrite <- app_assoc; assumption. }
      rewrite Hends. split; reflexivity.
    - destruct (endsWith (lit ".pdf") src) eqn:E1.
      { exfalso. destruct (endsWith_split _ _ E1) as [q Eq].
        apply (Hother 116 102 ltac:(discriminate)
                 (pre ++ lit ".tx") (q ++ lit ".pd"));
          rewrite <- app_assoc; assumption. }
      destruct (endsWith (lit ".md") src) eqn:E2.
      { exfalso. destruct (endsWith_split _ _ E2) as [q Eq].
        apply (Hother 116 100 ltac:(discriminate)
                 (pre ++ lit ".tx") (q ++ lit ".m"));
          rewrite <- app_assoc; assumption. }
      rewrite Hends. split; reflexivity. }
  destruct Hitem as [Hd Ht].
  split; [apply formatSource_source|].
  rewrite Hd, Hname.
  split; [exact Hbase|].
  split; [apply last_part_no_sep|].
  split; [exists dir; split; assumption|exact Ht].
Qed.

Lemma file_source_is_shown_by_its_base_name_witness :
  displayName (formatSource Sample.env Sample.notes_path) <> [].
Proof.
  exact (proj1 (proj2 (file_source_is_shown_by_its_base_name Sample.env
                         Sample.notes_path (lit ".md") eq_refl
                         (or_intror (or_introl eq_refl)) eq_refl))).
Defined.

(** ** Configuration *)

Lemma num_or_spec (a : jsnum) (d : Z) :
  d <> 0%Z ->
  exists z, num_or a d = Num z /\ z <> 0%Z
            /\ (a = Num z \/ (z = d /\ (a = NaN \/ a = Num 0))).
Proof.
  intros Hd. destruct a as [|[|p|p]]; simpl; eexists;
    (split; [reflexivity|]); (split; [try discriminate; exact Hd|]);
    auto.
Qed.

Lemma str_or_spec (a : option jsstring) (d : jsstring) :
  d <> [] ->
  str_or a d <> []
  /\ (a = Some (str_or a d) \/ (str_or a d = d /\ (a = None \/ a = Some []))).
Proof.
  intros Hd. destruct a as [[|c s]|]; simpl; split; auto; discriminate.
Qed.

(** Whatever the environment holds, the configuration has no blank: the
    store path and the uploads directory are not empty, and each numeric
    setting is a number other than zero, the variable's own value or,
    when the variable is unset, not a number, or zero, the default.  So a
    limit of zero cannot be configured, while a negative one is taken as
    it is.  The allowed types are always the same three. *)
Theorem configuration_has_no_blank_setting (e : ProcessEnv) :
  let c := appConfig e in
  path (database c) <> []
  /\ directory (uploads c) <> []
  /\ allowedTypes (uploads c) = Spec.recognized
  /\ Forall (fun '(given, set, default) =>
               exists z, set = Num z /\ z <> 0%Z
                         /\ (given = Num z
                             \/ (z = default
                                 /\ (given = NaN \/ given = Num 0))))
       [(MAX_FILE_SIZE e, maxFileSize (uploads c), 10485760%Z);
        (CLEANUP_INTERVAL e, cleanupInterval (uploads c), 60000%Z);
        (MAX_FILE_AGE e, maxFileAge (uploads c), 60000%Z);
        (CHUNK_SIZE e, Config.chunkSize (Config.chat c), 400%Z);
        (CHUNK_OVERLAP e, Config.chunkOverlap (Config.chat c), 50%Z)].
Proof.
  intros c. subst c. simpl.
  split; [apply str_or_spec; discriminate|].
  split; [apply str_or_spec; discriminate|].
  split; [reflexivity|].
  repeat constructor; apply num_or_spec; discriminate.
Qed.

(** ** A web source whose address cannot be read *)

(** [addWebSource] reads the host of the address only after the library
    has ingested the page.  Called on an initialised service with an
    address the URL parser refuses, it reports "Failed to load web
    source" although the library resolved, and the store keeps the rows
    the library wrote.  (POST /add-source parses the address first, so a
    request never gets here.) *)
Theorem unreadable_address_fails_after_the_page_is_stored
    (env : Env) (cfg : AppConfig) (url : jsstring) (w : World) (app : RagApp)
    (Happ : ragApplication w = Some app)
    (Hurl : url_hostname env url = None) :
  let l := WebLoader url (Config.chunkSize (Config.chat cfg))
                         (Config.chunkOverlap (Config.chat cfg)) in
  let r := RAGService.addWebSource env cfg url w in
  fst r = Throw (FailedToLoadWeb url)
  /\ calls (snd r) = calls w ++ [CAddLoader l]
  /\ db_rows (snd r) (app_db app)
     = fst (lib_addLoader env l (db_rows w (app_db app))).
Proof.
  intros l r. subst r.
  rewrite (addWebSource_run env cfg url w app Happ). cbv zeta. fold l.
  rewrite Hurl. cbn [fst snd].
  split; [destruct (addLoader_resolves env app l w); reflexivity|].
  split; [reflexivity|apply db_rows_after_addLoader].
Qed.

Lemma unreadable_address_fails_after_the_page_is_stored_witness :
  fst (RAGService.addWebSource Sample.env Sample.cfg (lit "example.com")
         Sample.booted) = Throw (FailedToLoadWeb (lit "example.com"))
  /\ DatabaseService.count Sample.cfg
       (snd (RAGService.addWebSource Sample.env Sample.cfg (lit "example.com")
               Sample.booted)) = 2%nat.
Proof.
  split.
  - exact (proj1 (unreadable_address_fails_after_the_page_is_stored
                    Sample.env Sample.cfg (lit "example.com") Sample.booted
                    Sample.store eq_refl eq_refl)).
  - reflexivity.
Defined.
